(** * LWE bit encryption: arithmetic utilities and scheme

    A shallow embedding of [src/encryption/utils.ts] and
    [src/encryption/lwe.ts], and of the calls the two pages
    ([src/app/page.tsx], [src/app/encrypt/page.tsx]) make into them.

    Modelling conventions.
    - A JavaScript [number] that holds an integer is a [Z]; [a % b] is the
      truncated remainder [Z.rem] (sign of the dividend), valid for a
      non-zero divisor.
    - A [number] is an IEEE double, exact on integers below [2^53] in
      absolute value only.  Where the code lets integers grow past that
      bound (the products and the running sum of [dotProduct], the counter
      of [findPrimeInRange], the bounds computed by [handleGenerateQ]) the
      result of each operation is rounded to the nearest double,
      [round_double]; theorems on these functions carry the bounds under
      which nothing is rounded.
    - A [number] that need not be an integer is an exact rational [Q]
      (the draws of [Math.random], the bounds given to [findPrimeInRange])
      or an exact real [R] (what [Math.log] and [Math.sqrt] produce).
    - A loop that never ends is the outcome [Loops] of a [run].
    - [throw new Error(msg)] is the [Throw msg] result; the message strings
      are the ones of the source.
    - [Math.random()] reads the next draw of an explicit tape of rationals;
      a computation that needs a draw from an empty tape [Starves]. *)

From Stdlib Require Import String ZArith QArith Qround Reals Lqa Lra Lia Bool List.
From Stdlib Require Import Znumtheory Qreals Ascii DecimalString.
From Equations Require Import Equations.
Import ListNotations.

Local Open Scope string_scope.
Local Open Scope Z_scope.

(** ** Results of calls that may throw *)

Inductive result (A : Type) : Type :=
| Ok (a : A)
| Throw (msg : string).
Arguments Ok {A} a.
Arguments Throw {A} msg.

Definition bind_result {A B} (r : result A) (k : A -> result B) : result B :=
  match r with
  | Ok a => k a
  | Throw msg => Throw msg
  end.

(** ** Calls that may never return *)

Inductive run (A : Type) : Type :=
| Finishes (a : A)
| Loops.
Arguments Finishes {A} a.
Arguments Loops {A}.

(** ** Integers held in doubles *)

(** The double nearest to the integer [z]: [z] itself below [2^53];
    beyond, a 53-bit significand times a power of two, rounded to nearest,
    ties to the even significand.  (No overflow below [2^1024].) *)
Definition round_double (z : Z) : Z :=
  let a := Z.abs z in
  if a <? 2 ^ 53 then z
  else
    let ulp := 2 ^ (Z.log2 a - 52) in
    let m := a / ulp in
    let r := a mod ulp in
    let m' := if 2 * r <? ulp then m
              else if ulp <? 2 * r then m + 1
              else if Z.even m then m else m + 1 in
    Z.sgn z * (m' * ulp).

(** ** Calls that read [Math.random()] *)

(** The draws still to be handed out, each meant to lie in [[0, 1)]. *)
Definition tape := list Q.

Inductive outcome (A : Type) : Type :=
| Returns (a : A) (rest : tape)
| Throws (msg : string)
| Starves.
Arguments Returns {A} a rest.
Arguments Throws {A} msg.
Arguments Starves {A}.

Definition Rand (A : Type) : Type := tape -> outcome A.

Definition bind_rand {A B} (c : Rand A) (k : A -> Rand B) : Rand B :=
  fun t =>
    match c t with
    | Returns a rest => k a rest
    | Throws msg => Throws msg
    | Starves => Starves
    end.

Class Monad (M : Type -> Type) : Type := {
  ret : forall {A}, A -> M A;
  bind : forall {A B}, M A -> (A -> M B) -> M B
}.

#[export] Instance result_monad : Monad result :=
  {| ret := @Ok; bind := @bind_result |}.

#[export] Instance rand_monad : Monad Rand :=
  {| ret := fun A a => (fun t => Returns a t); bind := @bind_rand |}.

Notation "x <- c ;; k" := (bind c (fun x => k))
  (at level 61, c at next level, right associativity).

Notation "' pat <- c ;; k" := (bind c (fun x => match x with pat => k end))
  (at level 61, pat pattern, c at next level, right associativity).

(** A pure call inside a randomised one. *)
Definition lift {A} (r : result A) : Rand A :=
  fun t => match r with Ok a => Returns a t | Throw msg => Throws msg end.

Definition raise {A} (msg : string) : Rand A := fun _ => Throws msg.

Definition Math_random : Rand Q :=
  fun t => match t with
           | [] => Starves
           | d :: rest => Returns d rest
           end.

(** A draw as [Math.random()] promises it. *)
Definition unit_draw (d : Q) : Prop := (0 <= d /\ d < 1)%Q.

(** [a < b] on rationals. *)
Definition Qlt_bool (a b : Q) : bool := negb (Qle_bool b a).

(** [Math.floor] and [Math.round] on a real. *)
Definition Math_floor (x : R) : Z := Int_part x.
Definition Math_round (x : R) : Z := Int_part (x + / 2)%R.

(** ** Vectors and key material ([types.ts]) *)

Definition Vector := list Z.

Record PublicKeyElement := mkElement {
  vector : Vector;
  scalar : Z
}.

Definition Ciphertext := PublicKeyElement.

Record PublicKey := mkPublicKey {
  pk_elements : list PublicKeyElement;
  pk_n : Z;
  pk_q : Z
}.

Record SecretKey := mkSecretKey {
  sk_vector : Vector;
  sk_n : Z;
  sk_q : Z
}.

(** ** Modular and vector arithmetic ([utils.ts]) *)

(** [mod(a, q)]: [((a % q) + q) % q]. *)
Definition mod_ (a q : Z) : Z := Z.rem (Z.rem a q + q) q.

(** [modVector(a, q)]: one vector and a modulus; nothing is thrown. *)
Definition modVector (a : Vector) (q : Z) : Vector :=
  map (fun x => mod_ x q) a.

Definition length_mismatch : string := "Vectors must have the same length".

(** The loop [for i < a.length: res.push(a[i] + b[i])], run once the
    lengths are known to agree. *)
Fixpoint sum_loop (a b : Vector) : Vector :=
  match a, b with
  | x :: a', y :: b' => (x + y) :: sum_loop a' b'
  | _, _ => []
  end.

Definition sumVectors (a b : Vector) : result Vector :=
  if negb (Nat.eqb (length a) (length b)) then Throw length_mismatch
  else Ok (sum_loop a b).

(** The loop [for i < a.length: sum += a[i] * b[i]]: the product is
    rounded to a double, and so is the sum. *)
Fixpoint dot_loop (sum : Z) (a b : Vector) : Z :=
  match a, b with
  | x :: a', y :: b' => dot_loop (round_double (sum + round_double (x * y))) a' b'
  | _, _ => sum
  end.

Definition dotProduct (a b : Vector) : result Z :=
  if negb (Nat.eqb (length a) (length b)) then Throw length_mismatch
  else Ok (dot_loop 0 a b).

(** ** Primality ([utils.ts]) *)

(** [for (i = start; i <= sqrtN; i += 2) if (n % i === 0) return false;
    return true].  [sqrtN] stands for the integer part of [Math.sqrt(n)]:
    for an integer [i] the test [i <= Math.sqrt(n)] is [i <= Z.sqrt n]
    (lemma [Math_sqrt_test] below). *)
Equations? isPrime_loop (n sqrtN i : Z) : bool
  by wf (Z.to_nat (sqrtN + 1 - i)) lt :=
  isPrime_loop n sqrtN i with Z_le_gt_dec i sqrtN := {
    | left _ => if Z.rem n i =? 0 then false
                else isPrime_loop n sqrtN (i + 2);
    | right _ => true }.
Proof. lia. Qed.

Definition isPrime (n : Z) : bool :=
  if n <? 2 then false
  else if n =? 2 then true
  else if Z.rem n 2 =? 0 then false
  else isPrime_loop n (Z.sqrt n) 3.

(** [for (i = start; i <= b; i++) if (isPrime(i)) return i; return null].
    [i++] stores the double nearest to [i + 1]; when that is [i] again the
    loop repeats the same iteration for ever. *)
Equations? findPrime_loop (i b : Z) : run (option Z)
  by wf (Z.to_nat (b + 1 - i)) lt :=
  findPrime_loop i b with Z_le_gt_dec i b := {
    | right _ => Finishes None;
    | left _ with isPrime i := {
      | true => Finishes (Some i);
      | false with Z_lt_dec i (round_double (i + 1)) := {
        | left _ => findPrime_loop (round_double (i + 1)) b;
        | right _ => Loops } } }.
Proof. lia. Qed.

(** [Number.isInteger] on a rational. *)
Definition isInteger (x : Q) : bool := Qeq_bool (inject_Z (Qfloor x)) x.

(** [findPrimeInRange(a, b)]; [None] is [null]. *)
Definition findPrimeInRange (a b : Q) : result (run (option Z)) :=
  if Qlt_bool b a then Throw "a must be less than or equal to b"
  else if negb (isInteger a) || negb (isInteger b)
       then Throw "a and b must be integers"
  else Ok (findPrime_loop (Z.max (Qfloor a) 2) (Qfloor b)).


(** ** Sampling ([utils.ts]) *)

(** The rejection loop of the polar method: two draws per trial, accepted
    when [0 < s_val < 1]; returns [(u, s_val)].  Each trial consumes the
    tape, so the recursion is on the tape itself. *)
Fixpoint polar_loop (t : tape) : outcome (Q * Q) :=
  match t with
  | d1 :: d2 :: rest =>
      let u := (2 * d1 - 1)%Q in
      let v := (2 * d2 - 1)%Q in
      let s_val := (u * u + v * v)%Q in
      if Qle_bool 1 s_val || Qeq_bool s_val 0 then polar_loop rest
      else Returns (u, s_val) rest
  | _ => Starves
  end.

Definition sampleNormal (s : R) : Rand Z :=
  if Rle_dec s 0 then raise "Standard deviation must be positive"
  else
    ' (u, s_val) <- polar_loop ;;
    let z0 := (Q2R u * sqrt ((-2 * ln (Q2R s_val)) / Q2R s_val))%R in
    ret (Math_round (z0 * s)).

Definition sampleUniform (q : Z) : Rand Z :=
  if q <=? 0 then raise "q must be a positive integer"
  else
    d <- Math_random ;;
    ret (Qfloor (d * inject_Z q)).

(** [for i < n: result.push(sampleUniform(q))]. *)
Fixpoint sampleUniform_times (q : Z) (k : nat) : Rand (list Z) :=
  match k with
  | O => ret []
  | S k' =>
      x <- sampleUniform q ;;
      xs <- sampleUniform_times q k' ;;
      ret (x :: xs)
  end.

Definition sampleUniformVector (q n : Z) : Rand (list Z) :=
  if n <=? 0 then raise "n must be a positive integer"
  else sampleUniform_times q (Z.to_nat n).

(** [set[idx]]; [None] is [undefined]. *)
Definition index {T} (set : list T) (idx : Z) : option T :=
  if idx <? 0 then None else nth_error set (Z.to_nat idx).

(** The first loop of [chooseRandomSubset]: one draw per item, kept when
    the draw is below one half. *)
Fixpoint inclusion_pass {T} (set : list T) : Rand (list T) :=
  match set with
  | [] => ret []
  | x :: tl =>
      d <- Math_random ;;
      res <- inclusion_pass tl ;;
      ret (if Qlt_bool d (1 # 2) then x :: res else res)
  end.

(** [chooseRandomSubset(set)].  The items of the result are [Some]; the
    fallback pushes [set[idx]], which is [undefined] only for an empty
    [set]. *)
Definition chooseRandomSubset {T} (set : list T) : Rand (list (option T)) :=
  res <- inclusion_pass set ;;
  match res with
  | [] =>
      d <- Math_random ;;
      let idx := Qfloor (d * inject_Z (Z.of_nat (length set))) in
      ret [index set idx]
  | _ => ret (map Some res)
  end.

(** ** The scheme ([lwe.ts]) *)

(** The body of the [for i < m] loop of [keygen], run [k] times. *)
Fixpoint keygen_elements (n q : Z) (alpha : R) (secret : Vector) (k : nat)
  : Rand (list PublicKeyElement) :=
  match k with
  | O => ret []
  | S k' =>
      vector <- sampleUniformVector q n ;;
      error <- sampleNormal (IZR (Math_floor (alpha * IZR q))) ;;
      dp <- lift (dotProduct vector secret) ;;
      let scalar := dp + error in
      rest <- keygen_elements n q alpha secret k' ;;
      ret (mkElement vector (mod_ scalar q) :: rest)
  end.

Definition keygen (n q : Z) : Rand (SecretKey * PublicKey) :=
  if n <=? 1 then raise "n must be greater than 1"
  else if q <? n * n then raise "q must be greater than n^2"
  else if negb (isPrime q) then raise "q must be a prime number"
  else
    let m := Math_floor (IZR n * ln (IZR q)) in
    let denom := (sqrt (IZR n) * ln (IZR n) ^ 2)%R in
    let alpha := (1 / denom)%R in
    secret <- sampleUniformVector q n ;;
    elements <- keygen_elements n q alpha secret (Z.to_nat m) ;;
    ret (mkSecretKey secret n q, mkPublicKey elements n q).

(** Reading a field of [undefined]. *)
Definition type_error : string := "Cannot read properties of undefined".

(** [for i >= 1: res.vector = sumVectors(res.vector, subset[i].vector);
    res.scalar = mod(res.scalar + subset[i].scalar, q)]. *)
Fixpoint encrypt_loop (q : Z) (res : Ciphertext)
  (rest : list (option PublicKeyElement)) : result Ciphertext :=
  match rest with
  | [] => Ok res
  | None :: _ => Throw type_error
  | Some e :: tl =>
      v <- sumVectors (vector res) (vector e) ;;
      encrypt_loop q (mkElement v (mod_ (scalar res + scalar e) q)) tl
  end.

(** [encrypt] once the subset is chosen. *)
Definition encrypt_subset (q : Z) (subset : list (option PublicKeyElement))
  (message : Z) : result Ciphertext :=
  match subset with
  | Some e0 :: rest =>
      res <- encrypt_loop q (mkElement (vector e0) (scalar e0)) rest ;;
      let s := if message =? 1 then scalar res + q / 2 else scalar res in
      Ok (mkElement (modVector (vector res) q) (mod_ s q))
  | _ => Throw type_error
  end.

Definition encrypt (publicKey : PublicKey) (message : Z) : Rand Ciphertext :=
  if negb (message =? 0) && negb (message =? 1)
  then raise "Message must be 0 or 1"
  else
    subset <- chooseRandomSubset (pk_elements publicKey) ;;
    lift (encrypt_subset (pk_q publicKey) subset message).

Definition decrypt (secret : SecretKey) (ciphertext : Ciphertext) : result Z :=
  dp <- dotProduct (vector ciphertext) (sk_vector secret) ;;
  let res := scalar ciphertext - dp in
  let res := mod_ res (sk_q secret) in
  let half := sk_q secret / 2 in
  let q := sk_q secret in
  let distToZero := Z.min res (q - res) in
  let distToHalf := Z.min (mod_ (res - half) q) (mod_ (half - res) q) in
  Ok (if distToZero <? distToHalf then 0 else 1).

(** The candidates [lo, lo + 1, ..., lo + count - 1] of a linear scan. *)
Definition Zrange (lo : Z) (count : nat) : list Z :=
  map (fun k => lo + Z.of_nat k) (seq 0 count).

(** [p] is the least prime of the interval [[lo, hi]]. *)
Definition smallest_prime_in (lo hi p : Z) : Prop :=
  lo <= p <= hi /\ prime p /\ forall k, lo <= k < p -> ~ prime k.

(** [x] holds an integer value. *)
Definition integral (x : Q) : Prop := exists z : Z, (x == inject_Z z)%Q.

(** ** How the pages call the scheme ([app/page.tsx], [app/encrypt/page.tsx]) *)

(** [handleGenerateQ]: the range searched for [q], for an integer [nValue]:
    [findPrimeInRange(nValue * nValue, 2 * nValue * nValue)], each product
    rounded to a double. *)
Definition generateQ (nValue : Z) : result (run (option Z)) :=
  let lowerBound := round_double (nValue * nValue) in
  let upperBound := round_double (round_double (2 * nValue) * nValue) in
  findPrimeInRange (inject_Z lowerBound) (inject_Z upperBound).

(** [validateBinaryString(str)]: [/^[01]+$/.test(str)]. *)
Definition validateBinaryString (str : string) : bool :=
  match str with
  | EmptyString => false
  | _ => forallb (fun c => Ascii.eqb c "0" || Ascii.eqb c "1")
                 (list_ascii_of_string str)
  end.

(** [parseInt(bit, 10)] on a one-character string; [None] is [NaN]. *)
Definition parseInt_char (bit : ascii) : option Z :=
  let code := Z.of_N (N_of_ascii bit) in
  if (48 <=? code) && (code <=? 57) then Some (code - 48) else None.

(** [encrypt(publicKey, message)] for a [message] that may be [NaN], which
    fails the first test of [encrypt] as any number other than 0 and 1. *)
Definition encrypt_number (publicKey : PublicKey) (message : option Z)
  : Rand Ciphertext :=
  match message with
  | Some m => encrypt publicKey m
  | None => raise "Message must be 0 or 1"
  end.

(** The loop of [handleEncrypt]:
    [for (const bit of bits) results.push(encrypt(publicKey, parseInt(bit, 10)))]. *)
Fixpoint encrypt_bits (publicKey : PublicKey) (bits : list ascii)
  : Rand (list Ciphertext) :=
  match bits with
  | [] => ret []
  | bit :: tl =>
      ciphertext <- encrypt_number publicKey (parseInt_char bit) ;;
      results <- encrypt_bits publicKey tl ;;
      ret (ciphertext :: results)
  end.

(** [bits = str.split("")] and the loop, for the trimmed input [str]. *)
Definition encryptString (publicKey : PublicKey) (str : string)
  : Rand (list Ciphertext) :=
  encrypt_bits publicKey (list_ascii_of_string str).

(** The loop of [handleDecrypt]:
    [for (const ciphertext of ciphertexts) bits.push(decrypt(secretKey, ciphertext))]. *)
Fixpoint decrypt_loop (secretKey : SecretKey) (ciphertexts : list Ciphertext)
  : result (list Z) :=
  match ciphertexts with
  | [] => ret []
  | ciphertext :: tl =>
      bit <- decrypt secretKey ciphertext ;;
      bits <- decrypt_loop secretKey tl ;;
      ret (bit :: bits)
  end.

(** An integer as [Array.prototype.join] prints it. *)
Definition Number_toString (z : Z) : string :=
  NilZero.string_of_int (Z.to_int z).

(** The loop and [bits.join("")]. *)
Definition decryptString (secretKey : SecretKey) (ciphertexts : list Ciphertext)
  : result string :=
  bits <- decrypt_loop secretKey ciphertexts ;;
  ret (String.concat "" (map Number_toString bits)).

(** The inner product over the integers: what [dotProduct] is meant to
    compute, and does compute as long as nothing is rounded. *)
Fixpoint dot_exact (a b : Vector) : Z :=
  match a, b with
  | x :: a', y :: b' => x * y + dot_exact a' b'
  | _, _ => 0
  end.

(** Every coordinate is at most [B] in absolute value. *)
Definition bounded (B : Z) (v : Vector) : Prop :=
  Forall (fun c => Z.abs c <= B) v.

(** Distance between [x] and [y] around the ring [Z/qZ]. *)
Definition circ_dist (q x y : Z) : Z := Z.min ((x - y) mod q) ((y - x) mod q).

(** The scalars of the selected elements, summed without any reduction. *)
Definition sum_scalars (sel : list PublicKeyElement) : Z :=
  fold_right (fun e acc => scalar e + acc) 0 sel.

(** The ciphertext scalar as the specification words it: the full sum,
    plus [floor(q / 2)] for the bit 1, reduced once. *)
Definition encrypt_scalar_spec (q : Z) (sel : list PublicKeyElement)
  (message : Z) : Z :=
  (sum_scalars sel + (if message =? 1 then q / 2 else 0)) mod q.

(** All selected vectors have length [len]. *)
Definition same_length (len : nat) (sel : list PublicKeyElement) : Prop :=
  Forall (fun e => length (vector e) = len) sel.

(** Key material as the data model wants it. *)
Definition in_range (q x : Z) : Prop := 0 <= x < q.

Definition vector_ok (n q : Z) (v : Vector) : Prop :=
  Z.of_nat (length v) = n /\ Forall (in_range q) v.

Definition element_ok (n q : Z) (e : PublicKeyElement) : Prop :=
  vector_ok n q (vector e) /\ in_range q (scalar e).

Definition keys_ok (n q m : Z) (sk : SecretKey) (pk : PublicKey) : Prop :=
  vector_ok n q (sk_vector sk) /\ sk_n sk = n /\ sk_q sk = q /\
  Z.of_nat (length (pk_elements pk)) = m /\
  Forall (element_ok n q) (pk_elements pk) /\ pk_n pk = n /\ pk_q pk = q.

(** Partial correctness of a randomised call: on draws from [[0, 1)] it
    never throws, and a value it returns satisfies [P]. *)
Definition sound {A} (P : A -> Prop) (c : Rand A) : Prop :=
  forall t, Forall unit_draw t ->
    match c t with
    | Returns a rest => P a /\ Forall unit_draw rest
    | Throws _ => False
    | Starves => True
    end.

(** A draw that the polar method accepts whatever its partner is, as long
    as the partner is calm too. *)
Definition calm (d : Q) : Prop :=
  (0 < (2 * d - 1) * (2 * d - 1) /\ (2 * d - 1) * (2 * d - 1) < 1 # 2)%Q.

(** Termination: on a tape of at least [cost] draws that all satisfy
    [good], the call returns after reading at most [cost] of them. *)
Definition returns_within {A} (good : Q -> Prop) (cost : nat) (c : Rand A)
  : Prop :=
  forall t, Forall good t -> (cost <= length t)%nat ->
    exists a rest, c t = Returns a rest /\ Forall good rest
                   /\ (length t <= cost + length rest)%nat.

(** The three parameter errors of [keygen]. *)
Definition InvalidDimension : string := "n must be greater than 1".

(** Draws read by [keygen] when every polar trial is accepted at once:
    [n] for the secret, then [n + 2] per public-key element. *)
Definition keygen_draws (n m : Z) : nat := Z.to_nat (n + m * (n + 2)).


(** A key and a ciphertext on which the two distances of [decrypt] tie:
    [q = 5], [noisy = 1], one step from 0 and one step from [floor(5/2)]. *)
Definition tie_key : SecretKey := mkSecretKey [1; 2] 2 5.

(** A two-element public key modulo 5 and a tape that selects both. *)
Definition small_key : PublicKey :=
  mkPublicKey [mkElement [1; 2] 3; mkElement [4; 0] 4] 2 5.
Definition small_tape : tape := [1 # 4; 1 # 4]%Q.

(** What one public-key element is off by: the circular distance between
    its scalar and the inner product of its vector with the secret. *)
Definition element_noise (secret : Vector) (q : Z) (e : PublicKeyElement) : Z :=
  circ_dist q (scalar e - dot_exact (vector e) secret) 0.

Definition total_noise (secret : Vector) (q : Z)
  (es : list PublicKeyElement) : Z :=
  fold_right (fun e acc => element_noise secret q e + acc) 0 es.

(** [l1] is [l2] with some items left out, order kept. *)
Inductive subseq {T : Type} : list T -> list T -> Prop :=
| subseq_nil : subseq [] []
| subseq_skip (x : T) (l1 l2 : list T) : subseq l1 l2 -> subseq l1 (x :: l2)
| subseq_keep (x : T) (l1 l2 : list T) :
    subseq l1 l2 -> subseq (x :: l1) (x :: l2).

(** Coordinate [i] of every selected vector, summed without reduction. *)
Definition sum_coordinate (i : nat) (sel : list PublicKeyElement) : Z :=
  fold_right (fun e acc => nth i (vector e) 0 + acc) 0 sel.

Definition quiet_public : PublicKey :=
  mkPublicKey [mkElement [1; 2] 14; mkElement [4; 0] 11] 2 29.

(** A run of [keygen(2, 5)] followed by one [encrypt]: two draws for the
    secret [1, 2]; for each of the three elements two draws for its vector
    and the polar pair (1/2, 3/4), whose [u] is 0 and whose noise is
    therefore 0; then three draws of [chooseRandomSubset], which keep the
    first element only. *)
Definition demo_tape : tape :=
  [1 # 5; 2 # 5;
   0 # 1; 1 # 5; 1 # 2; 3 # 4;
   2 # 5; 0 # 1; 1 # 2; 3 # 4;
   3 # 5; 4 # 5; 1 # 2; 3 # 4;
   1 # 4; 3 # 4; 3 # 4]%Q.
Definition demo_encrypt_tape : tape := [1 # 4; 3 # 4; 3 # 4]%Q.
Definition demo_secret : SecretKey := mkSecretKey [1; 2] 2 5.
Definition demo_public : PublicKey :=
  mkPublicKey [mkElement [0; 1] 2; mkElement [2; 0] 2; mkElement [3; 4] 1] 2 5.

(** A run of [keygen(2, 17)] with noise: the secret [3, 5]; five elements,
    the first with the polar pair (10101/20002, 30001/40004), for which
    [u = 100/10001], [u^2 + v^2 = 1/4] and the rounded sample is 1, the
    others with the pair (1/2, 3/4) and no noise; then five draws of
    [chooseRandomSubset], which keep the first and the third element. *)
Definition noisy_tape : tape :=
  [3 # 17; 5 # 17;
   1 # 17; 2 # 17; 10101 # 20002; 30001 # 40004;
   4 # 17; 0 # 1; 1 # 2; 3 # 4;
   7 # 17; 11 # 17; 1 # 2; 3 # 4;
   16 # 17; 9 # 17; 1 # 2; 3 # 4;
   0 # 1; 13 # 17; 1 # 2; 3 # 4;
   1 # 4; 3 # 4; 1 # 4; 3 # 4; 3 # 4]%Q.
Definition noisy_encrypt_tape : tape := [1 # 4; 3 # 4; 1 # 4; 3 # 4; 3 # 4]%Q.
Definition noisy_secret : SecretKey := mkSecretKey [3; 5] 2 17.
Definition noisy_public : PublicKey :=
  mkPublicKey [mkElement [1; 2] 14; mkElement [4; 0] 12; mkElement [7; 11] 8;
               mkElement [16; 9] 8; mkElement [0; 13] 14] 2 17.

(** * Properties *)

(** ** [mod] *)

Lemma mod_is_modulo (a q : Z) : 0 < q -> mod_ a q = a mod q.
Proof.
  intros Hq. unfold mod_.
  pose proof (Z.rem_bound_abs a q ltac:(lia)) as Hb.
  rewrite Z.rem_mod_nonneg by lia.
  pose proof (Z.quot_rem a q ltac:(lia)) as Hqr.
  replace (Z.rem a q + q) with (a + (1 - a ÷ q) * q) by lia.
  apply Z.mod_add. lia.
Qed.

Lemma mod_bounds (a q : Z) : 0 < q -> 0 <= mod_ a q < q.
Proof.
  intros Hq. rewrite mod_is_modulo by assumption.
  apply Z.mod_pos_bound. assumption.
Qed.

(** ** [isPrime] *)

Lemma isPrime_loop_true (n sqrtN i : Z) :
  isPrime_loop n sqrtN i = true <->
  (forall k, 0 <= k -> i + 2 * k <= sqrtN -> Z.rem n (i + 2 * k) <> 0).
Proof.
  funelim (isPrime_loop n sqrtN i).
  - destruct (Z.eqb_spec (Z.rem n i) 0) as [E | E].
    + split; [discriminate |].
      intros Hall. exfalso. apply (Hall 0); [lia | lia |].
      now rewrite Z.add_0_r.
    + rewrite H. split.
      * intros Hall k Hk Hle.
        destruct (Z.eq_dec k 0) as [-> | Hk0].
        -- now rewrite Z.add_0_r.
        -- replace (i + 2 * k) with (i + 2 + 2 * (k - 1)) by lia.
           apply Hall; lia.
      * intros Hall k Hk Hle.
        replace (i + 2 + 2 * k) with (i + 2 * (k + 1)) by lia.
        apply Hall; lia.
  - split; [| reflexivity]. intros _ k Hk Hle. lia.
Qed.

Lemma odd_not_rem2 (n : Z) : Z.rem n 2 <> 0 -> forall d, (d | n) -> Z.rem d 2 <> 0.
Proof.
  intros Hn d [c Hc] Hd. apply Hn.
  apply Z.rem_divide; [lia |].
  apply Z.rem_divide in Hd; [| lia].
  destruct Hd as [e He]. exists (c * e). lia.
Qed.

Lemma odd_from_three (d : Z) :
  1 < d -> Z.rem d 2 <> 0 -> exists k, 0 <= k /\ d = 3 + 2 * k.
Proof.
  intros Hd Hodd.
  pose proof (Z.quot_rem d 2 ltac:(lia)) as Hqr.
  pose proof (Z.rem_bound_pos d 2 ltac:(lia) ltac:(lia)) as Hb.
  assert (Z.rem d 2 = 1) as H1 by lia.
  exists (d ÷ 2 - 1). lia.
Qed.

(** [isPrime] decides primality, on every integer. *)
Lemma isPrime_spec (n : Z) : isPrime n = true <-> prime n.
Proof.
  unfold isPrime.
  destruct (Z.ltb_spec n 2) as [Hlt | Hge].
  { split; [discriminate |]. intros [H1 _]. lia. }
  destruct (Z.eqb_spec n 2) as [-> | Hne].
  { split; [intros _; apply prime_alt; exact Z.prime_2 | reflexivity]. }
  destruct (Z.eqb_spec (Z.rem n 2) 0) as [Heven | Hodd].
  { split; [discriminate |]. intros Hp.
    apply prime_alt in Hp. destruct Hp as [_ Hp].
    exfalso. apply (Hp 2); [lia |].
    apply Z.rem_divide; [lia | assumption]. }
  rewrite isPrime_loop_true. split.
  - intros Hall. apply prime_alt. split; [lia |].
    intros d Hd Hdiv.
    pose proof Hdiv as [e He].
    assert (1 < e < n) as Hebound by nia.
    assert ((e | n)) as Hediv by (exists d; lia).
    (* the smaller of the two cofactors is at most the square root *)
    assert (exists m, 1 < m /\ (m | n) /\ m * m <= n) as (m & Hm1 & Hmdiv & Hmsq).
    { destruct (Z_le_gt_dec d e).
      - exists d. repeat split; [lia | assumption | nia].
      - exists e. repeat split; [lia | assumption | nia]. }
    destruct (odd_from_three m Hm1 (odd_not_rem2 n Hodd m Hmdiv)) as (k & Hk & ->).
    apply (Hall k Hk).
    + apply Z.sqrt_le_square; lia.
    + apply Z.rem_divide; [lia | assumption].
  - intros Hp k Hk Hle Hrem.
    apply prime_alt in Hp. destruct Hp as [_ Hp].
    apply Z.sqrt_le_square in Hle; [| lia | lia].
    apply (Hp (3 + 2 * k)); [nia |].
    apply Z.rem_divide; [lia | assumption].
Qed.

Lemma isPrime_false (n : Z) : isPrime n = false <-> ~ prime n.
Proof.
  rewrite <- isPrime_spec. destruct (isPrime n); split; congruence.
Qed.

Lemma not_prime_divisor (k d c : Z) : 1 < d < k -> k = d * c -> ~ prime k.
Proof.
  intros Hd E Hp. apply prime_alt in Hp. destruct Hp as [_ Hp].
  apply (Hp d Hd). exists c. lia.
Qed.

(** For an integer candidate [i], the source's test [i <= Math.sqrt(n)]
    is the integer test used in [isPrime_loop]. *)
Lemma Math_sqrt_test (n i : Z) :
  0 <= n -> 0 <= i -> (IZR i <= sqrt (IZR n))%R <-> i <= Z.sqrt n.
Proof.
  intros Hn Hi.
  rewrite <- (Z.sqrt_le_square n i) by assumption.
  assert (0 <= IZR i)%R as Hi' by (apply IZR_le; assumption).
  assert (0 <= IZR n)%R as Hn' by (apply IZR_le; assumption).
  split.
  - intros Hle. apply le_IZR. rewrite mult_IZR.
    rewrite <- (sqrt_sqrt (IZR n)) by assumption.
    apply Rmult_le_compat; assumption.
  - intros Hle. apply IZR_le in Hle. rewrite mult_IZR in Hle.
    rewrite <- (sqrt_square (IZR i)) by assumption.
    apply sqrt_le_1; try assumption.
    apply Rmult_le_pos; assumption.
Qed.

(** ** [findPrimeInRange] *)

Lemma Zrange_cons (lo : Z) (count : nat) :
  Zrange lo (S count) = lo :: Zrange (lo + 1) count.
Proof.
  unfold Zrange. simpl. rewrite Z.add_0_r. f_equal.
  rewrite <- seq_shift, map_map.
  apply map_ext. intros k. lia.
Qed.

(** Integers below [2^53] are doubles. *)
Lemma round_double_exact (z : Z) : Z.abs z < 2 ^ 53 -> round_double z = z.
Proof.
  intros H. unfold round_double.
  destruct (Z.ltb_spec (Z.abs z) (2 ^ 53)); [reflexivity | lia].
Qed.

(** So is [2^53] itself: counting up from below reaches it. *)
Lemma round_double_succ (i : Z) :
  0 <= i < 2 ^ 53 -> round_double (i + 1) = i + 1.
Proof.
  intros Hi. destruct (Z.eq_dec (i + 1) (2 ^ 53)) as [E | E].
  - rewrite E. reflexivity.
  - apply round_double_exact. lia.
Qed.

(** Past the upper bound the loop is over. *)
Lemma findPrime_loop_done (i b : Z) : b < i -> findPrime_loop i b = Finishes None.
Proof.
  intros H. funelim (findPrime_loop i b); try lia. reflexivity.
Qed.

(** One iteration, when the counter is still exact. *)
Lemma findPrime_loop_step (i b : Z) :
  0 <= i <= b -> b < 2 ^ 53 ->
  findPrime_loop i b =
  if isPrime i then Finishes (Some i) else findPrime_loop (i + 1) b.
Proof.
  intros Hi Hb. pose proof (round_double_succ i ltac:(lia)) as Hsucc.
  funelim (findPrime_loop i b); try lia;
    match goal with H : isPrime _ = _ |- _ => rewrite H end;
    [reflexivity | rewrite Hsucc; reflexivity].
Qed.

(** One iteration, when the counter no longer advances. *)
Lemma findPrime_loop_stuck (i b : Z) :
  i <= b -> isPrime i = false -> round_double (i + 1) <= i ->
  findPrime_loop i b = Loops.
Proof.
  intros Hi Hp Hr. funelim (findPrime_loop i b); try lia; congruence.
Qed.

(** Whatever the bounds, a value the loop returns is a prime between them. *)
Lemma findPrime_loop_sound (i b p : Z) :
  findPrime_loop i b = Finishes (Some p) -> i <= p <= b /\ prime p.
Proof.
  funelim (findPrime_loop i b); try discriminate.
  - intros [= <-]. split; [lia |]. apply isPrime_spec. assumption.
  - intros E. destruct (H p E) as [Hr Hp]. split; [lia | assumption].
Qed.

(** Up to [2^53 - 1] the loop is a linear scan: the first candidate that
    passes [isPrime]. *)
Lemma findPrime_loop_scan (i b : Z) :
  0 <= i -> b < 2 ^ 53 ->
  findPrime_loop i b = Finishes (find isPrime (Zrange i (Z.to_nat (b + 1 - i)))).
Proof.
  intros Hi Hb.
  remember (Z.to_nat (b + 1 - i)) as k eqn:Hk. revert i Hi Hk.
  induction k as [| k IH]; intros i Hi Hk.
  - apply findPrime_loop_done. lia.
  - rewrite findPrime_loop_step by lia. rewrite Zrange_cons. simpl.
    destruct (isPrime i); [reflexivity |]. apply IH; lia.
Qed.

Lemma find_isPrime_some (i p : Z) (k : nat) :
  find isPrime (Zrange i k) = Some p
  <-> smallest_prime_in i (i + Z.of_nat k - 1) p.
Proof.
  unfold smallest_prime_in. revert i. induction k as [| k IH]; intros i.
  - split; [discriminate |]. intros (Hr & _). simpl in Hr. lia.
  - rewrite Zrange_cons. simpl find. destruct (isPrime i) eqn:Hi.
    + apply isPrime_spec in Hi. split.
      * intros [= <-]. split; [lia | split; [assumption |]]. intros j Hj. lia.
      * intros (Hr & Hp & Hmin). f_equal.
        destruct (Z.eq_dec i p) as [E | E]; [assumption |].
        exfalso. apply (Hmin i); [lia | assumption].
    + apply isPrime_false in Hi. rewrite IH. split.
      * intros (Hr & Hp & Hmin). split; [lia | split; [assumption |]].
        intros j Hj. destruct (Z.eq_dec j i) as [-> | E]; [assumption |].
        apply Hmin. lia.
      * intros (Hr & Hp & Hmin).
        assert (i <> p) by (intros ->; contradiction).
        split; [lia | split; [assumption |]].
        intros j Hj. apply Hmin. lia.
Qed.

Lemma find_isPrime_none (i : Z) (k : nat) :
  find isPrime (Zrange i k) = None
  <-> forall j, i <= j <= i + Z.of_nat k - 1 -> ~ prime j.
Proof.
  revert i. induction k as [| k IH]; intros i.
  - split; [| reflexivity]. intros _ j Hj. lia.
  - rewrite Zrange_cons. simpl find. destruct (isPrime i) eqn:Hi.
    + apply isPrime_spec in Hi. split; [discriminate |].
      intros Hall. exfalso. apply (Hall i); [lia | assumption].
    + apply isPrime_false in Hi. rewrite IH. split.
      * intros Hall j Hj. destruct (Z.eq_dec j i) as [-> | E]; [assumption |].
        apply Hall. lia.
      * intros Hall j Hj. apply Hall. lia.
Qed.

Lemma findPrime_loop_some (i b p : Z) :
  0 <= i -> b < 2 ^ 53 ->
  findPrime_loop i b = Finishes (Some p) <-> smallest_prime_in i b p.
Proof.
  intros Hi Hb. rewrite findPrime_loop_scan by assumption.
  destruct (Z_le_gt_dec i b) as [Hle | Hgt].
  - pose proof (find_isPrime_some i p (Z.to_nat (b + 1 - i))) as Hf.
    replace (i + Z.of_nat (Z.to_nat (b + 1 - i)) - 1) with b in Hf by lia.
    rewrite <- Hf. split; [intros [= E]; exact E | intros ->; reflexivity].
  - replace (Z.to_nat (b + 1 - i)) with O by lia. simpl.
    split; [discriminate |]. unfold smallest_prime_in. intros (Hr & _). lia.
Qed.

Lemma findPrime_loop_none (i b : Z) :
  0 <= i -> b < 2 ^ 53 ->
  findPrime_loop i b = Finishes None <-> forall k, i <= k <= b -> ~ prime k.
Proof.
  intros Hi Hb. rewrite findPrime_loop_scan by assumption.
  split.
  - intros [= E]. intros j Hj.
    apply (proj1 (find_isPrime_none i (Z.to_nat (b + 1 - i))) E). lia.
  - intros Hall. f_equal. apply find_isPrime_none. intros j Hj. apply Hall. lia.
Qed.

Lemma Qlt_bool_iff (a b : Q) : Qlt_bool a b = true <-> (a < b)%Q.
Proof.
  unfold Qlt_bool. rewrite negb_true_iff.
  destruct (Qle_bool b a) eqn:E.
  - apply Qle_bool_iff in E. split; [discriminate |].
    intros Hlt. exfalso. apply (Qlt_not_le _ _ Hlt E).
  - split; [| reflexivity]. intros _.
    apply Qnot_le_lt. intros Hle.
    apply Qle_bool_iff in Hle. congruence.
Qed.

Lemma isInteger_iff (x : Q) : isInteger x = true <-> integral x.
Proof.
  unfold isInteger, integral. rewrite Qeq_bool_iff. split.
  - intros E. exists (Qfloor x). symmetry. exact E.
  - intros [z E]. rewrite (Qfloor_comp _ _ E), Qfloor_Z. symmetry. exact E.
Qed.

Lemma findPrimeInRange_integers (a b : Z) :
  a <= b ->
  findPrimeInRange (inject_Z a) (inject_Z b) = Ok (findPrime_loop (Z.max a 2) b).
Proof.
  intros Hab. unfold findPrimeInRange.
  destruct (Qlt_bool (inject_Z b) (inject_Z a)) eqn:E.
  { apply Qlt_bool_iff in E. rewrite <- Zlt_Qlt in E. lia. }
  assert (forall z, isInteger (inject_Z z) = true) as Hint.
  { intros z. apply isInteger_iff. exists z. reflexivity. }
  rewrite !Hint, !Qfloor_Z. reflexivity.
Qed.

Lemma findPrimeInRange_rejects (a b : Q) :
  (b < a)%Q \/ ~ integral a \/ ~ integral b ->
  findPrimeInRange a b = Throw "a must be less than or equal to b" \/
  findPrimeInRange a b = Throw "a and b must be integers".
Proof.
  intros H. unfold findPrimeInRange.
  destruct (Qlt_bool b a) eqn:E; [left; reflexivity | right].
  destruct H as [H | [H | H]].
  - apply Qlt_bool_iff in H. congruence.
  - destruct (isInteger a) eqn:Ea; [| reflexivity].
    apply isInteger_iff in Ea. contradiction.
  - destruct (isInteger b) eqn:Eb; [| now rewrite orb_true_r].
    apply isInteger_iff in Eb. contradiction.
Qed.

(** ** Vector operations *)

Lemma sumVectors_mismatch (a b : Vector) :
  length a <> length b -> sumVectors a b = Throw length_mismatch.
Proof.
  intros H. unfold sumVectors.
  apply Nat.eqb_neq in H. rewrite H. reflexivity.
Qed.

Lemma dotProduct_mismatch (a b : Vector) :
  length a <> length b -> dotProduct a b = Throw length_mismatch.
Proof.
  intros H. unfold dotProduct.
  apply Nat.eqb_neq in H. rewrite H. reflexivity.
Qed.

Lemma sumVectors_same (a b : Vector) :
  length a = length b -> sumVectors a b = Ok (sum_loop a b).
Proof.
  intros H. unfold sumVectors. rewrite H, Nat.eqb_refl. reflexivity.
Qed.

Lemma dotProduct_same (a b : Vector) :
  length a = length b -> dotProduct a b = Ok (dot_loop 0 a b).
Proof.
  intros H. unfold dotProduct. rewrite H, Nat.eqb_refl. reflexivity.
Qed.

Lemma sum_loop_length (a b : Vector) :
  length a = length b -> length (sum_loop a b) = length a.
Proof.
  revert b. induction a as [| x a IH]; intros [| y b] H; simpl in *;
    try discriminate; try reflexivity.
  f_equal. apply IH. lia.
Qed.

Lemma modVector_length (a : Vector) (q : Z) :
  length (modVector a q) = length a.
Proof. unfold modVector. apply length_map. Qed.

Lemma modVector_range (a : Vector) (q : Z) :
  0 < q -> Forall (fun x => 0 <= x < q) (modVector a q).
Proof.
  intros Hq. unfold modVector. apply Forall_map, Forall_forall.
  intros x _. apply mod_bounds. assumption.
Qed.

(** ** [decrypt] *)

Lemma circ_dist_zero (q r : Z) :
  0 < q -> 0 <= r < q -> Z.min r (q - r) = circ_dist q r 0.
Proof.
  intros Hq Hr. unfold circ_dist.
  rewrite Z.sub_0_r, (Z.mod_small r q) by lia.
  destruct (Z.eq_dec r 0) as [-> | Hr0].
  - rewrite Z.mod_0_l by lia. lia.
  - replace (0 - r) with (q - r + -1 * q) by lia.
    rewrite Z.mod_add by lia. rewrite Z.mod_small by lia. reflexivity.
Qed.

Lemma circ_dist_code (q r h : Z) :
  0 < q -> Z.min (mod_ (r - h) q) (mod_ (h - r) q) = circ_dist q r h.
Proof.
  intros Hq. unfold circ_dist. now rewrite !mod_is_modulo by assumption.
Qed.

Lemma decrypt_unfold (secret : SecretKey) (ciphertext : Ciphertext) :
  0 < sk_q secret ->
  length (vector ciphertext) = length (sk_vector secret) ->
  let q := sk_q secret in
  let noisy := mod_ (scalar ciphertext
                     - dot_loop 0 (vector ciphertext) (sk_vector secret)) q in
  dotProduct (vector ciphertext) (sk_vector secret)
    = Ok (dot_loop 0 (vector ciphertext) (sk_vector secret)) /\
  decrypt secret ciphertext
    = Ok (if circ_dist q noisy 0 <? circ_dist q noisy (q / 2) then 0 else 1).
Proof.
  intros Hq Hlen q noisy. split; [apply dotProduct_same; assumption |].
  unfold decrypt. rewrite dotProduct_same by assumption. simpl.
  fold q. fold noisy.
  rewrite circ_dist_code by assumption.
  rewrite circ_dist_zero; [reflexivity | assumption |].
  apply mod_bounds. assumption.
Qed.

(** ** [encrypt] *)

Lemma encrypt_loop_some (q : Z) (sel : list PublicKeyElement) (res : Ciphertext)
  (len : nat) :
  length (vector res) = len -> same_length len sel ->
  exists res', encrypt_loop q res (map Some sel) = Ok res'
               /\ length (vector res') = len.
Proof.
  revert res. induction sel as [| e sel IH]; intros res Hres Hsel; simpl.
  - exists res. split; [reflexivity | assumption].
  - inversion Hsel as [| ? ? He Hsel']; subst.
    rewrite sumVectors_same by congruence. simpl.
    apply IH; [| assumption]. simpl.
    rewrite sum_loop_length; congruence.
Qed.

Lemma encrypt_loop_scalar (q : Z) (sel : list PublicKeyElement)
  (res res' : Ciphertext) :
  0 < q ->
  encrypt_loop q res (map Some sel) = Ok res' ->
  scalar res' mod q = (scalar res + sum_scalars sel) mod q.
Proof.
  intros Hq. revert res. induction sel as [| e sel IH]; intros res; simpl.
  - intros [= <-]. now rewrite Z.add_0_r.
  - destruct (sumVectors (vector res) (vector e)) as [v | msg]; simpl;
      [| discriminate].
    intros Hrun. rewrite (IH _ Hrun). simpl.
    rewrite mod_is_modulo by assumption.
    rewrite Zplus_mod_idemp_l. f_equal. lia.
Qed.

Lemma encrypt_subset_scalar (q : Z) (sel : list PublicKeyElement)
  (message : Z) (ct : Ciphertext) :
  0 < q ->
  encrypt_subset q (map Some sel) message = Ok ct ->
  scalar ct = encrypt_scalar_spec q sel message.
Proof.
  intros Hq. destruct sel as [| e0 sel]; simpl; [discriminate |].
  destruct (encrypt_loop q _ (map Some sel)) as [res | msg] eqn:Hloop; simpl;
    [| discriminate].
  intros [= <-]. simpl.
  apply encrypt_loop_scalar in Hloop; [| assumption]. simpl in Hloop.
  unfold encrypt_scalar_spec. simpl.
  rewrite mod_is_modulo by assumption.
  destruct (message =? 1).
  - rewrite <- Zplus_mod_idemp_l, Hloop, Zplus_mod_idemp_l. reflexivity.
  - rewrite Hloop, Z.add_0_r. reflexivity.
Qed.

Lemma encrypt_subset_returns (q : Z) (sel : list PublicKeyElement)
  (message : Z) (len : nat) :
  sel <> [] -> same_length len sel ->
  exists ct, encrypt_subset q (map Some sel) message = Ok ct.
Proof.
  intros Hne Hsel. destruct sel as [| e0 sel]; [contradiction |].
  inversion Hsel as [| ? ? He Hsel']; subst. simpl.
  destruct (encrypt_loop_some q sel (mkElement (vector e0) (scalar e0))
              (length (vector e0)) eq_refl Hsel') as (res & Hres & _).
  rewrite Hres. simpl. eexists. reflexivity.
Qed.

(** ** Reasoning about randomised calls *)

Lemma bind_unfold {A B} (c : Rand A) (k : A -> Rand B) (t : tape) :
  (x <- c ;; k x) t =
  match c t with
  | Returns a rest => k a rest
  | Throws msg => Throws msg
  | Starves => Starves
  end.
Proof. reflexivity. Qed.

Lemma sound_ret {A} (P : A -> Prop) (a : A) : P a -> sound P (ret a).
Proof. intros Ha t Ht. simpl. split; assumption. Qed.

Lemma sound_bind {A B} (P : A -> Prop) (Q : B -> Prop)
  (c : Rand A) (k : A -> Rand B) :
  sound P c -> (forall a, P a -> sound Q (k a)) -> sound Q (x <- c ;; k x).
Proof.
  intros Hc Hk t Ht. rewrite bind_unfold.
  specialize (Hc t Ht). destruct (c t) as [a rest | msg |].
  - destruct Hc as [Ha Hrest]. apply (Hk a Ha rest Hrest).
  - contradiction.
  - exact I.
Qed.

Lemma sound_weaken {A} (P P' : A -> Prop) (c : Rand A) :
  (forall a, P a -> P' a) -> sound P c -> sound P' c.
Proof.
  intros Himp Hc t Ht. specialize (Hc t Ht).
  destruct (c t); try assumption.
  destruct Hc. split; auto.
Qed.

Lemma sound_lift {A} (P : A -> Prop) (a : A) : P a -> sound P (lift (Ok a)).
Proof. intros Ha t Ht. simpl. split; assumption. Qed.

Lemma sound_random : sound unit_draw Math_random.
Proof.
  intros [| d t] Ht; simpl; [exact I |].
  inversion Ht; subst. split; assumption.
Qed.

Lemma returns_ret {A} (good : Q -> Prop) (a : A) :
  returns_within good 0 (ret a).
Proof.
  intros t Ht _. exists a, t. repeat split; [assumption | lia].
Qed.

Lemma returns_bind {A B} (good : Q -> Prop) (c : Rand A) (k : A -> Rand B)
  (m1 m2 : nat) :
  returns_within good m1 c -> (forall a, returns_within good m2 (k a)) ->
  returns_within good (m1 + m2) (x <- c ;; k x).
Proof.
  intros Hc Hk t Ht Hlen. rewrite bind_unfold.
  destruct (Hc t Ht ltac:(lia)) as (a & rest & -> & Hrest & Hl).
  destruct (Hk a rest Hrest ltac:(lia)) as (b & rest' & -> & Hrest' & Hl').
  exists b, rest'. repeat split; [assumption | lia].
Qed.

Lemma returns_weaken {A} (good : Q -> Prop) (c : Rand A) (m m' : nat) :
  (m <= m')%nat -> returns_within good m c -> returns_within good m' c.
Proof.
  intros Hm Hc t Ht Hlen.
  destruct (Hc t Ht ltac:(lia)) as (a & rest & E & Hrest & Hl).
  exists a, rest. repeat split; [assumption | assumption | lia].
Qed.

Lemma returns_lift {A} (good : Q -> Prop) (a : A) :
  returns_within good 0 (lift (Ok a)).
Proof.
  intros t Ht _. exists a, t. repeat split; [assumption | lia].
Qed.

Lemma returns_random (good : Q -> Prop) : returns_within good 1 Math_random.
Proof.
  intros [| d t] Ht Hlen; simpl in *; [lia |].
  inversion Ht; subst. exists d, t. repeat split; [assumption | lia].
Qed.

(** ** Uniform sampling *)

Lemma floor_scaled_draw (d : Q) (q : Z) :
  0 < q -> unit_draw d -> 0 <= Qfloor (d * inject_Z q) < q.
Proof.
  intros Hq [Hd0 Hd1].
  assert (inject_Z 0 < inject_Z q)%Q as Hq' by (rewrite <- Zlt_Qlt; assumption).
  split.
  - change 0 with (Qfloor (inject_Z 0)) at 1.
    apply Qfloor_resp_le. apply Qmult_le_0_compat; [assumption |].
    apply Qlt_le_weak. assumption.
  - rewrite Zlt_Qlt.
    apply Qle_lt_trans with (d * inject_Z q)%Q; [apply Qfloor_le |].
    rewrite <- (Qmult_1_l (inject_Z q)) at 2.
    apply Qmult_lt_compat_r; assumption.
Qed.

Lemma sound_sampleUniform (q : Z) :
  0 < q -> sound (in_range q) (sampleUniform q).
Proof.
  intros Hq. unfold sampleUniform.
  destruct (Z.leb_spec q 0); [lia |].
  apply sound_bind with (P := unit_draw); [apply sound_random |].
  intros d Hd. apply sound_ret. apply floor_scaled_draw; assumption.
Qed.

Lemma returns_sampleUniform (good : Q -> Prop) (q : Z) :
  0 < q -> returns_within good 1 (sampleUniform q).
Proof.
  intros Hq. unfold sampleUniform.
  destruct (Z.leb_spec q 0); [lia |].
  apply (returns_bind _ _ _ 1 0); [apply returns_random |].
  intros d. apply returns_ret.
Qed.

Lemma sound_sampleUniform_times (q : Z) (k : nat) :
  0 < q ->
  sound (fun v => length v = k /\ Forall (in_range q) v)
        (sampleUniform_times q k).
Proof.
  intros Hq. induction k as [| k IH]; simpl sampleUniform_times.
  - apply sound_ret. split; [reflexivity | constructor].
  - apply sound_bind with (P := in_range q);
      [apply sound_sampleUniform; assumption |].
    intros x Hx.
    apply sound_bind with (P := fun v => length v = k /\ Forall (in_range q) v);
      [exact IH |].
    intros xs [Hlen Hall]. apply sound_ret. split.
    + simpl. congruence.
    + constructor; assumption.
Qed.

Lemma returns_sampleUniform_times (good : Q -> Prop) (q : Z) (k : nat) :
  0 < q -> returns_within good k (sampleUniform_times q k).
Proof.
  intros Hq. induction k as [| k IH]; simpl sampleUniform_times.
  - apply returns_ret.
  - apply (returns_bind _ _ _ 1 k); [apply returns_sampleUniform; assumption |].
    intros x. replace k with (k + 0)%nat at 1 by lia.
    apply returns_bind; [exact IH |].
    intros xs. apply returns_ret.
Qed.

Lemma sampleUniform_times_length (q : Z) (k : nat) (t t1 : tape) (v : list Z) :
  sampleUniform_times q k t = Returns v t1 -> length v = k.
Proof.
  revert t t1 v. induction k as [| k IH]; intros t t1 v; simpl.
  - intros [= <- _]. reflexivity.
  - unfold bind_rand at 1.
    destruct (sampleUniform q t) as [x t' | |]; try discriminate.
    unfold bind_rand at 1.
    destruct (sampleUniform_times q k t') as [xs t'' | |] eqn:E;
      try discriminate.
    intros [= <- _]. simpl. f_equal. apply (IH _ _ _ E).
Qed.

Lemma sampleUniformVector_length (q n : Z) (t t1 : tape) (v : list Z) :
  sampleUniformVector q n t = Returns v t1 -> Z.of_nat (length v) = n.
Proof.
  unfold sampleUniformVector.
  destruct (Z.leb_spec n 0); [discriminate |].
  intros E. apply sampleUniform_times_length in E. lia.
Qed.

Lemma sound_sampleUniformVector (q n : Z) :
  0 < q -> 0 < n -> sound (vector_ok n q) (sampleUniformVector q n).
Proof.
  intros Hq Hn. unfold sampleUniformVector.
  destruct (Z.leb_spec n 0); [lia |].
  apply sound_weaken with (2 := sound_sampleUniform_times q (Z.to_nat n) Hq).
  intros v [Hlen Hall]. split; [lia | assumption].
Qed.

Lemma returns_sampleUniformVector (good : Q -> Prop) (q n : Z) :
  0 < q -> 0 < n ->
  returns_within good (Z.to_nat n) (sampleUniformVector q n).
Proof.
  intros Hq Hn. unfold sampleUniformVector.
  destruct (Z.leb_spec n 0); [lia |].
  apply returns_sampleUniform_times. assumption.
Qed.

(** ** Gaussian sampling *)

Lemma polar_loop_step (d1 d2 : Q) (rest : tape) :
  polar_loop (d1 :: d2 :: rest) =
  let u := (2 * d1 - 1)%Q in
  let v := (2 * d2 - 1)%Q in
  let s_val := (u * u + v * v)%Q in
  if Qle_bool 1 s_val || Qeq_bool s_val 0 then polar_loop rest
  else Returns (u, s_val) rest.
Proof. reflexivity. Qed.

Lemma sound_polar_loop : sound (fun _ => True) polar_loop.
Proof.
  assert (forall t, Forall unit_draw t ->
            (match polar_loop t with
             | Returns _ rest => True /\ Forall unit_draw rest
             | Throws _ => False
             | Starves => True
             end) /\
            (forall d, match polar_loop (d :: t) with
                       | Returns _ rest => True /\ Forall unit_draw rest
                       | Throws _ => False
                       | Starves => True
                       end)) as Hboth.
  { induction t as [| d2 t IH]; intros Ht.
    - split; [exact I | intros d; exact I].
    - inversion Ht as [| ? ? Hd2 Ht']; subst.
      destruct (IH Ht') as [IH0 IH1]. split; [apply IH1 |].
      intros d1. rewrite polar_loop_step. cbv zeta.
      destruct (Qle_bool 1 _ || Qeq_bool _ 0); [exact IH0 |].
      split; [exact I | assumption]. }
  intros t Ht. apply (Hboth t Ht).
Qed.

Lemma returns_polar_loop : returns_within calm 2 polar_loop.
Proof.
  intros t Ht Hlen.
  destruct t as [| d1 [| d2 rest]]; simpl in Hlen; try lia.
  inversion Ht as [| ? ? [Hu0 Hu1] Ht1]; subst.
  inversion Ht1 as [| ? ? [Hv0 Hv1] Ht2]; subst.
  rewrite polar_loop_step. cbv zeta.
  set (u := (2 * d1 - 1)%Q) in *. set (v := (2 * d2 - 1)%Q) in *.
  set (uu := (u * u)%Q) in *. set (vv := (v * v)%Q) in *.
  assert (Qle_bool 1 (uu + vv) = false) as E1.
  { destruct (Qle_bool 1 (uu + vv)) eqn:E; [| reflexivity].
    apply Qle_bool_iff in E. exfalso. Lqa.lra. }
  assert (Qeq_bool (uu + vv) 0 = false) as E2.
  { destruct (Qeq_bool (uu + vv) 0) eqn:E; [| reflexivity].
    apply Qeq_bool_iff in E. exfalso. Lqa.lra. }
  rewrite E1, E2. simpl.
  eexists _, rest. repeat split; [assumption | simpl; lia].
Qed.

Lemma sound_sampleNormal (s : R) :
  (0 < s)%R -> sound (fun _ => True) (sampleNormal s).
Proof.
  intros Hs. unfold sampleNormal.
  destruct (Rle_dec s 0); [lra |].
  apply sound_bind with (P := fun _ : Q * Q => True);
    [apply sound_polar_loop |].
  intros [u s_val] _. apply sound_ret. exact I.
Qed.

Lemma returns_sampleNormal (s : R) :
  (0 < s)%R -> returns_within calm 2 (sampleNormal s).
Proof.
  intros Hs. unfold sampleNormal.
  destruct (Rle_dec s 0); [lra |].
  apply (returns_bind _ _ _ 2 0); [apply returns_polar_loop |].
  intros [u s_val]. apply returns_ret.
Qed.

Lemma sampleNormal_rejects (s : R) (t : tape) :
  (s <= 0)%R -> sampleNormal s t = Throws "Standard deviation must be positive".
Proof.
  intros Hs. unfold sampleNormal.
  destruct (Rle_dec s 0); [reflexivity | contradiction].
Qed.

(** ** The parameters derived by [keygen] *)

Lemma Math_floor_ge (z : Z) (x : R) : (IZR z <= x)%R -> z <= Math_floor x.
Proof.
  intros H. unfold Math_floor.
  destruct (base_Int_part x) as [_ Hgt].
  assert (IZR (z - 1) < IZR (Int_part x))%R as Hlt.
  { rewrite minus_IZR. lra. }
  apply lt_IZR in Hlt. lia.
Qed.

Lemma ln_le_pred (t : R) : (0 < t -> ln t <= t - 1)%R.
Proof.
  intros Ht. pose proof (exp_ineq1_le (ln t)) as H.
  rewrite exp_ln in H by assumption. lra.
Qed.

Lemma ln_le_sqrt (x : R) : (0 < x -> ln x <= sqrt x)%R.
Proof.
  intros Hx.
  assert (0 < sqrt x)%R as Hs by (apply sqrt_lt_R0; assumption).
  assert (0 < sqrt (sqrt x))%R as Ht by (apply sqrt_lt_R0; assumption).
  set (t := sqrt (sqrt x)) in *.
  assert (t * t = sqrt x)%R as Htt by (apply sqrt_sqrt; lra).
  assert (sqrt x * sqrt x = x)%R as Hss by (apply sqrt_sqrt; lra).
  assert (ln x = 4 * ln t)%R as Hln.
  { assert (x = (t * t) * (t * t))%R as Hx4 by (rewrite Htt; symmetry; exact Hss).
    rewrite Hx4 at 1.
    assert (0 < t * t)%R by nra.
    rewrite ln_mult by assumption. rewrite ln_mult by assumption. lra. }
  pose proof (ln_le_pred t Ht) as Hpred.
  pose proof (Rle_0_sqr (t - 2)) as Hsq. unfold Rsqr in Hsq.
  rewrite Hln, <- Htt. lra.
Qed.

Lemma noise_scale_ge_1 (n q : Z) :
  1 < n -> n * n <= q ->
  1 <= Math_floor (1 / (sqrt (IZR n) * ln (IZR n) ^ 2) * IZR q).
Proof.
  intros Hn Hq. apply Math_floor_ge.
  assert (1 < IZR n)%R as Hn' by (apply IZR_lt; assumption).
  assert (IZR n * IZR n <= IZR q)%R as Hq'.
  { rewrite <- mult_IZR. apply IZR_le. assumption. }
  assert (0 < sqrt (IZR n))%R as Hs by (apply sqrt_lt_R0; lra).
  assert (sqrt (IZR n) * sqrt (IZR n) = IZR n)%R as Hss by (apply sqrt_sqrt; lra).
  assert (0 < ln (IZR n))%R as Hl.
  { rewrite <- ln_1. apply ln_increasing; lra. }
  pose proof (ln_le_sqrt (IZR n) ltac:(lra)) as Hls.
  set (s := sqrt (IZR n)) in *. set (l := ln (IZR n)) in *.
  assert (0 < s * l ^ 2)%R as Hd by (simpl; nra).
  assert (s * l ^ 2 <= IZR q)%R as Hle.
  { assert (l ^ 2 <= s * s)%R by (simpl; nra).
    assert (1 <= s)%R by nra.
    assert (s * l ^ 2 <= s * (s * s))%R by nra.
    assert (s * (s * s) <= (s * s) * (s * s))%R by nra.
    rewrite Hss in *. lra. }
  unfold Rdiv. rewrite Rmult_1_l.
  apply (Rmult_le_reg_l (s * l ^ 2)); [assumption |].
  rewrite <- Rmult_assoc, Rinv_r by lra. lra.
Qed.

Lemma sample_count_nonneg (n q : Z) :
  1 < n -> n * n <= q -> 0 <= Math_floor (IZR n * ln (IZR q)).
Proof.
  intros Hn Hq. apply Math_floor_ge.
  assert (1 < IZR n)%R as Hn' by (apply IZR_lt; assumption).
  assert (1 < IZR q)%R as Hq' by (apply IZR_lt; nia).
  assert (0 < ln (IZR q))%R as Hl.
  { rewrite <- ln_1. apply ln_increasing; lra. }
  nra.
Qed.

(** ** [keygen] *)

Lemma keygen_elements_S (n q : Z) (alpha : R) (secret : Vector) (k : nat) :
  keygen_elements n q alpha secret (S k) =
  (vector <- sampleUniformVector q n ;;
   error <- sampleNormal (IZR (Math_floor (alpha * IZR q))) ;;
   dp <- lift (dotProduct vector secret) ;;
   rest <- keygen_elements n q alpha secret k ;;
   ret (mkElement vector (mod_ (dp + error) q) :: rest)).
Proof. reflexivity. Qed.

Lemma sound_keygen_elements (n q : Z) (alpha : R) (secret : Vector) (k : nat) :
  0 < q -> 0 < n -> 1 <= Math_floor (alpha * IZR q) ->
  Z.of_nat (length secret) = n ->
  sound (fun es => length es = k /\ Forall (element_ok n q) es)
        (keygen_elements n q alpha secret k).
Proof.
  intros Hq Hn Hs Hsecret. induction k as [| k IH].
  - apply sound_ret. split; [reflexivity | constructor].
  - rewrite keygen_elements_S.
    apply sound_bind with (P := vector_ok n q);
      [apply sound_sampleUniformVector; assumption |].
    intros v Hv.
    apply sound_bind with (P := fun _ : Z => True).
    { apply sound_sampleNormal. apply IZR_lt. lia. }
    intros error _.
    rewrite dotProduct_same by (destruct Hv; lia).
    apply sound_bind with (P := fun _ : Z => True);
      [apply sound_lift; exact I |].
    intros dp _.
    apply sound_bind with
      (P := fun es => length es = k /\ Forall (element_ok n q) es);
      [exact IH |].
    intros es [Hlen Hall]. apply sound_ret. split.
    + simpl. congruence.
    + constructor; [| assumption].
      split; [exact Hv |]. apply mod_bounds. assumption.
Qed.

Lemma returns_keygen_elements (n q : Z) (alpha : R) (secret : Vector) (k : nat) :
  0 < q -> 0 < n -> 1 <= Math_floor (alpha * IZR q) ->
  Z.of_nat (length secret) = n ->
  returns_within calm (k * (Z.to_nat n + 2))
    (keygen_elements n q alpha secret k).
Proof.
  intros Hq Hn Hs Hsecret. induction k as [| k IH].
  - apply returns_ret.
  - rewrite keygen_elements_S.
    replace (S k * (Z.to_nat n + 2))%nat
      with (Z.to_nat n + (2 + (0 + (k * (Z.to_nat n + 2) + 0))))%nat by lia.
    (* the vector is read back with its length, to run [dotProduct] *)
    intros t Ht Hlen. rewrite bind_unfold.
    destruct (returns_sampleUniformVector calm q n Hq Hn t Ht ltac:(lia))
      as (v & t1 & Ev & Ht1 & Hl1).
    rewrite Ev.
    assert (length v = length secret) as Hlenv.
    { apply sampleUniformVector_length in Ev. lia. }
    assert (returns_within calm (2 + (0 + (k * (Z.to_nat n + 2) + 0)))
              (error <- sampleNormal (IZR (Math_floor (alpha * IZR q))) ;;
               dp <- lift (dotProduct v secret) ;;
               rest <- keygen_elements n q alpha secret k ;;
               ret (mkElement v (mod_ (dp + error) q) :: rest))) as Hrest.
    { apply returns_bind.
      { apply returns_sampleNormal. apply IZR_lt. lia. }
      intros error. rewrite dotProduct_same by assumption.
      apply returns_bind; [apply returns_lift |].
      intros dp. apply returns_bind; [exact IH |].
      intros es. apply returns_ret. }
    destruct (Hrest t1 Ht1 ltac:(lia)) as (es & t2 & E2 & Ht2 & Hl2).
    exists es, t2. repeat split; [assumption | assumption | lia].
Qed.

Lemma keygen_guards (n q : Z) :
  1 < n -> n * n <= q -> prime q ->
  keygen n q =
  (secret <- sampleUniformVector q n ;;
   elements <- keygen_elements n q
                 (1 / (sqrt (IZR n) * ln (IZR n) ^ 2))%R secret
                 (Z.to_nat (Math_floor (IZR n * ln (IZR q)))) ;;
   ret (mkSecretKey secret n q, mkPublicKey elements n q)).
Proof.
  intros Hn Hq Hp. unfold keygen.
  destruct (Z.leb_spec n 1); [lia |].
  destruct (Z.ltb_spec q (n * n)); [lia |].
  apply isPrime_spec in Hp. rewrite Hp. reflexivity.
Qed.

Lemma sound_keygen (n q : Z) :
  1 < n -> n * n <= q -> prime q ->
  sound (fun keys => keys_ok n q (Math_floor (IZR n * ln (IZR q)))
                       (fst keys) (snd keys))
        (keygen n q).
Proof.
  intros Hn Hq Hp. rewrite keygen_guards by assumption.
  assert (0 < q) as Hq0 by nia.
  pose proof (sample_count_nonneg n q Hn Hq) as Hm.
  apply sound_bind with (P := vector_ok n q);
    [apply sound_sampleUniformVector; lia |].
  intros secret Hsecret.
  eapply sound_bind.
  { apply sound_keygen_elements; try lia.
    - apply noise_scale_ge_1; assumption.
    - destruct Hsecret. assumption. }
  intros es [Hlen Hall]. apply sound_ret.
  destruct Hsecret as [Hslen Hsall]. unfold keys_ok, vector_ok. simpl.
  repeat split; try assumption; lia.
Qed.

Lemma returns_keygen (n q : Z) :
  1 < n -> n * n <= q -> prime q ->
  returns_within calm
    (keygen_draws n (Math_floor (IZR n * ln (IZR q)))) (keygen n q).
Proof.
  intros Hn Hq Hp. rewrite keygen_guards by assumption.
  assert (0 < q) as Hq0 by nia.
  pose proof (sample_count_nonneg n q Hn Hq) as Hm.
  set (m := Math_floor (IZR n * ln (IZR q))) in *.
  unfold keygen_draws.
  replace (Z.to_nat (n + m * (n + 2)))
    with (Z.to_nat n + (Z.to_nat m * (Z.to_nat n + 2) + 0))%nat by nia.
  intros t Ht Hlen. rewrite bind_unfold.
  destruct (returns_sampleUniformVector calm q n Hq0 ltac:(lia) t Ht ltac:(lia))
    as (secret & t1 & Ev & Ht1 & Hl1).
  rewrite Ev. apply sampleUniformVector_length in Ev.
  assert (returns_within calm (Z.to_nat m * (Z.to_nat n + 2) + 0)
            (elements <- keygen_elements n q
                           (1 / (sqrt (IZR n) * ln (IZR n) ^ 2))%R secret
                           (Z.to_nat m) ;;
             ret (mkSecretKey secret n q, mkPublicKey elements n q))) as Hrest.
  { apply returns_bind.
    - apply returns_keygen_elements; try lia.
      apply noise_scale_ge_1; assumption.
    - intros es. apply returns_ret. }
  destruct (Hrest t1 Ht1 ltac:(lia)) as (keys & t2 & E2 & Ht2 & Hl2).
  exists keys, t2. repeat split; [assumption | assumption | lia].
Qed.

(** ** [chooseRandomSubset] *)

Lemma sound_inclusion_pass {T} (set : list T) :
  sound (fun res => forall x, In x res -> In x set) (inclusion_pass set).
Proof.
  induction set as [| y set IH]; simpl inclusion_pass.
  - apply sound_ret. intros x [].
  - apply sound_bind with (P := unit_draw); [apply sound_random |].
    intros d _. eapply sound_bind; [exact IH |].
    intros res Hres. apply sound_ret. intros x Hx.
    destruct (Qlt_bool d (1 # 2)).
    + destruct Hx as [-> | Hx]; [left; reflexivity | right; auto].
    + right. auto.
Qed.

Lemma returns_inclusion_pass {T} (good : Q -> Prop) (set : list T) :
  returns_within good (length set) (inclusion_pass set).
Proof.
  induction set as [| y set IH]; simpl inclusion_pass.
  - apply returns_ret.
  - apply (returns_bind _ _ _ 1 (length set)); [apply returns_random |].
    intros d. replace (length set) with (length set + 0)%nat by lia.
    apply returns_bind; [exact IH |].
    intros res. apply returns_ret.
Qed.

Lemma index_in_range {T} (set : list T) (idx : Z) :
  0 <= idx < Z.of_nat (length set) ->
  exists x, index set idx = Some x /\ In x set.
Proof.
  intros Hidx. unfold index.
  destruct (Z.ltb_spec idx 0); [lia |].
  destruct (nth_error set (Z.to_nat idx)) as [x |] eqn:E.
  - exists x. split; [reflexivity |]. apply (nth_error_In _ _ E).
  - apply nth_error_None in E. lia.
Qed.

Lemma chooseRandomSubset_unfold {T} (set : list T) (t : tape) :
  chooseRandomSubset set t =
  match inclusion_pass set t with
  | Returns [] rest0 =>
      match rest0 with
      | [] => Starves
      | d :: rest =>
          Returns [index set (Qfloor (d * inject_Z (Z.of_nat (length set))))]
                  rest
      end
  | Returns (x :: res) rest0 => Returns (map Some (x :: res)) rest0
  | Throws msg => Throws msg
  | Starves => Starves
  end.
Proof.
  unfold chooseRandomSubset. rewrite bind_unfold.
  destruct (inclusion_pass set t) as [[| x res] rest0 | |]; try reflexivity.
  destruct rest0; reflexivity.
Qed.

Lemma sound_chooseRandomSubset {T} (set : list T) :
  set <> [] ->
  sound (fun res => res <> [] /\
                    forall o, In o res -> exists x, o = Some x /\ In x set)
        (chooseRandomSubset set).
Proof.
  intros Hne. unfold chooseRandomSubset.
  eapply sound_bind; [apply sound_inclusion_pass |].
  intros [| y res] Hres.
  - apply sound_bind with (P := unit_draw); [apply sound_random |].
    intros d Hd. apply sound_ret. split; [discriminate |].
    intros o [<- | []]. apply index_in_range.
    apply floor_scaled_draw; [| assumption].
    destruct set; [contradiction | simpl; lia].
  - apply sound_ret. split; [discriminate |].
    intros o Ho. apply in_map_iff in Ho. destruct Ho as (x & <- & Hx).
    exists x. split; [reflexivity | auto].
Qed.

Lemma returns_chooseRandomSubset {T} (good : Q -> Prop) (set : list T) :
  returns_within good (length set + 1) (chooseRandomSubset set).
Proof.
  unfold chooseRandomSubset.
  apply returns_bind; [apply returns_inclusion_pass |].
  intros [| y res].
  - replace 1%nat with (1 + 0)%nat by lia.
    apply returns_bind; [apply returns_random |].
    intros d. apply returns_ret.
  - apply returns_weaken with (m := 0%nat); [lia | apply returns_ret].
Qed.

Lemma calm_unit_draw (d : Q) : calm d -> unit_draw d.
Proof.
  intros [_ Hlt]. unfold unit_draw.
  split.
  - apply Qnot_lt_le. intros Hneg. Lqa.nra.
  - apply Qnot_le_lt. intros Hge. Lqa.nra.
Qed.

Lemma polar_loop_never_throws (t : tape) (msg : string) :
  polar_loop t <> Throws msg.
Proof.
  assert (forall t, polar_loop t <> Throws msg
                    /\ forall d, polar_loop (d :: t) <> Throws msg) as Hboth.
  { clear t. induction t as [| d2 t [IH0 IH1]].
    - split; [discriminate | intros d; discriminate].
    - split; [apply IH1 |].
      intros d1. rewrite polar_loop_step. cbv zeta.
      destruct (Qle_bool 1 _ || Qeq_bool _ 0); [exact IH0 | discriminate]. }
  apply (Hboth t).
Qed.

Lemma sampleNormal_never_throws (s : R) (t : tape) (msg : string) :
  (0 < s)%R -> sampleNormal s t <> Throws msg.
Proof.
  intros Hs. unfold sampleNormal.
  destruct (Rle_dec s 0); [lra |].
  rewrite bind_unfold.
  pose proof (polar_loop_never_throws t) as Hp.
  destruct (polar_loop t) as [[u s_val] rest | msg' |].
  - discriminate.
  - exfalso. apply (Hp msg'). reflexivity.
  - discriminate.
Qed.


Lemma prime_5 : prime 5.
Proof. apply isPrime_spec. reflexivity. Qed.

(** ** The model runs *)

Example mod_of_negative : mod_ (-7) 5 = 3.
Proof. reflexivity. Qed.

Example isPrime_small :
  map isPrime [-3; 0; 1; 2; 3; 4; 9; 25; 29; 49; 97; 100]
  = [false; false; false; true; true; false; false; false; true; false;
     true; false].
Proof. reflexivity. Qed.

Example findPrime_25_50 :
  findPrimeInRange (inject_Z 25) (inject_Z 50) = Ok (Finishes (Some 29)).
Proof. reflexivity. Qed.

Example findPrime_reversed :
  findPrimeInRange (inject_Z 7) (inject_Z 3)
  = Throw "a must be less than or equal to b".
Proof. reflexivity. Qed.

Example findPrime_fraction :
  findPrimeInRange (5 # 2) (inject_Z 7) = Throw "a and b must be integers".
Proof. reflexivity. Qed.

Example dotProduct_short : dotProduct [1; 2] [3] = Throw length_mismatch.
Proof. reflexivity. Qed.

Example dotProduct_value : dotProduct [1; 2; 3] [4; 5; 6] = Ok 32.
Proof. reflexivity. Qed.

(** Past [2^53]: [2^53 + 1] is not a double and falls back to [2^53];
    [94906267^2 = 9007199515875289] is stored as [9007199515875288]. *)
Example round_double_values :
  map round_double [2 ^ 53 - 1; 2 ^ 53; 2 ^ 53 + 1; 2 ^ 53 + 2; 2 ^ 53 + 3;
                    - (2 ^ 53 + 1); 94906267 * 94906267]
  = [2 ^ 53 - 1; 2 ^ 53; 2 ^ 53; 2 ^ 53 + 2; 2 ^ 53 + 4;
     - (2 ^ 53); 9007199515875288].
Proof. reflexivity. Qed.

Example dotProduct_rounds :
  dotProduct [94906267] [94906267] = Ok 9007199515875288 /\
  dot_exact [94906267] [94906267] = 9007199515875289.
Proof. split; reflexivity. Qed.

Example subset_by_inclusion :
  chooseRandomSubset [10; 20; 30] [3 # 4; 1 # 4; 1 # 2; 0 # 1]%Q
  = Returns [Some 20] [0 # 1]%Q.
Proof. reflexivity. Qed.

Example subset_by_fallback :
  chooseRandomSubset [10; 20; 30] [3 # 4; 3 # 4; 1 # 2; 2 # 3]%Q
  = Returns [Some 30] [].
Proof. reflexivity. Qed.

Example subset_of_nothing :
  chooseRandomSubset (@nil Z) [1 # 3]%Q = Returns [None] [].
Proof. reflexivity. Qed.

Example subset_starved :
  chooseRandomSubset [10; 20; 30] [3 # 4; 3 # 4; 1 # 2]%Q = Starves.
Proof. reflexivity. Qed.

Example encrypt_small_key :
  encrypt small_key 1 small_tape = Returns (mkElement [0; 2] 4) [].
Proof. reflexivity. Qed.

Example encrypt_bad_message :
  encrypt small_key 2 small_tape = Throws "Message must be 0 or 1".
Proof. reflexivity. Qed.

Example decrypt_near_zero : decrypt tie_key (mkElement [0; 0] 0) = Ok 0.
Proof. reflexivity. Qed.

Example decrypt_near_half : decrypt tie_key (mkElement [0; 0] 2) = Ok 1.
Proof. reflexivity. Qed.

Example keygen_small_dimension :
  keygen 1 5 [] = Throws "n must be greater than 1".
Proof. reflexivity. Qed.

Example keygen_composite_modulus :
  keygen 3 9 [] = Throws "q must be a prime number".
Proof. reflexivity. Qed.

(** * The claims *)




(** C2.  For [n > 1] and a prime [q >= n * n], with
    [m = floor(n * ln q)]: whenever [keygen n q] returns, on draws from
    [[0, 1)], the secret vector has length [n] with coordinates in
    [[0, q)] and the public key has exactly [m] elements, each with a
    vector of length [n], coordinates in [[0, q)] and a scalar in
    [[0, q)]; and it does return such keys as soon as the polar trials are
    accepted and the draws do not run out. *)
Theorem keygen_keys (n q : Z) :
  1 < n -> n * n <= q -> prime q ->
  let m := Math_floor (IZR n * ln (IZR q)) in
  (forall t sk pk rest,
     Forall unit_draw t -> keygen n q t = Returns (sk, pk) rest ->
     keys_ok n q m sk pk) /\
  (forall t,
     Forall calm t -> (keygen_draws n m <= length t)%nat ->
     exists sk pk rest,
       keygen n q t = Returns (sk, pk) rest /\ keys_ok n q m sk pk).
Proof.
  intros Hn Hq Hp m.
  assert (forall t sk pk rest,
            Forall unit_draw t -> keygen n q t = Returns (sk, pk) rest ->
            keys_ok n q m sk pk) as Hpartial.
  { intros t sk pk rest Ht E.
    pose proof (sound_keygen n q Hn Hq Hp t Ht) as Hs.
    rewrite E in Hs. apply Hs. }
  split; [exact Hpartial |].
  intros t Ht Hlen.
  destruct (returns_keygen n q Hn Hq Hp t Ht Hlen)
    as ([sk pk] & rest & E & _ & _).
  exists sk, pk, rest. split; [exact E |].
  apply (Hpartial t sk pk rest); [| exact E].
  apply Forall_impl with (2 := Ht). exact calm_unit_draw.
Qed.

Lemma keygen_keys_witness :
  1 < 2 /\ 2 * 2 <= 5 /\ prime 5 /\
  forall t,
    Forall calm t ->
    (keygen_draws 2 (Math_floor (IZR 2 * ln (IZR 5))) <= length t)%nat ->
    exists sk pk rest,
      keygen 2 5 t = Returns (sk, pk) rest /\
      keys_ok 2 5 (Math_floor (IZR 2 * ln (IZR 5))) sk pk.
Proof.
  split; [lia | split; [lia | split; [exact prime_5 |]]].
  apply (keygen_keys 2 5); [lia | lia | exact prime_5].
Defined.



(** C4 (as the code has it).  [sumVectors] and [dotProduct] reject vectors
    of different lengths with the length-mismatch error; [modVector] takes
    one vector and a modulus, checks no length and returns a vector as
    long as its input. *)
Theorem vector_length_checks (a b : Vector) :
  length a <> length b ->
  sumVectors a b = Throw length_mismatch /\
  dotProduct a b = Throw length_mismatch /\
  forall q, length (modVector a q) = length a.
Proof.
  intros H. split; [| split].
  - apply sumVectors_mismatch. assumption.
  - apply dotProduct_mismatch. assumption.
  - intros q. apply modVector_length.
Qed.

Lemma vector_length_checks_witness :
  length [1; 2; 3] <> length [4; 5] /\
  sumVectors [1; 2; 3] [4; 5] = Throw length_mismatch /\
  dotProduct [1; 2; 3] [4; 5] = Throw length_mismatch /\
  forall q, length (modVector [1; 2; 3] q) = length [1; 2; 3].
Proof.
  split; [simpl; lia |].
  apply (vector_length_checks [1; 2; 3] [4; 5]). simpl. lia.
Defined.

(** C4 as worded fails for [modVector]: its second argument is the modulus,
    there is no second vector whose length could differ, and the call
    returns a value; here the two-coordinate vector [7, -1] modulo 5. *)
Lemma modVector_no_length_check :
  modVector [7; -1] 5 = [2; 4] /\
  forall msg, Ok (modVector [7; -1] 5) <> Throw msg.
Proof. split; [reflexivity | discriminate]. Qed.





(** C7 (a defect of the code).  The claim, like the comment above
    [findPrimeInRange], promises the smallest prime of the interval, or
    [null] when there is none, for all integers [a <= b].  On
    [(2^53, 2^53 + 2)], two integers that are doubles, the code gives
    neither: [2^53] is not prime, [i++] leaves the counter at [2^53] because
    [2^53 + 1] is not a double, and the loop never ends, although the
    interval holds no prime and [null] was due.  [handleGenerateQ] runs
    into the same loop for [n = 94906266], whose square is above [2^53]. *)
Theorem findPrimeInRange_hangs :
  2 ^ 53 = 9007199254740992 /\
  round_double (2 ^ 53) = 2 ^ 53 /\ round_double (2 ^ 53 + 2) = 2 ^ 53 + 2 /\
  isPrime (2 ^ 53) = false /\ round_double (2 ^ 53 + 1) = 2 ^ 53 /\
  (forall k, 2 ^ 53 <= k <= 2 ^ 53 + 2 -> ~ prime k) /\
  findPrimeInRange (inject_Z (2 ^ 53)) (inject_Z (2 ^ 53 + 2)) = Ok Loops /\
  findPrimeInRange (inject_Z (2 ^ 53)) (inject_Z (2 ^ 53 + 2))
    <> Ok (Finishes None) /\
  generateQ 94906266
    = findPrimeInRange (inject_Z 9007199326062756) (inject_Z 18014398652125512) /\
  generateQ 94906266 = Ok Loops.
Proof.
  assert (isPrime (2 ^ 53) = false) as Hp.
  { apply isPrime_false, (not_prime_divisor _ 2 (2 ^ 52)); [lia | reflexivity]. }
  assert (findPrimeInRange (inject_Z (2 ^ 53)) (inject_Z (2 ^ 53 + 2)) = Ok Loops)
    as Hrun.
  { rewrite findPrimeInRange_integers by lia.
    change (Z.max (2 ^ 53) 2) with (2 ^ 53).
    rewrite findPrime_loop_stuck;
      [reflexivity | lia | exact Hp | vm_compute; discriminate]. }
  split; [reflexivity | split; [reflexivity | split; [reflexivity |]]].
  split; [exact Hp | split; [reflexivity | split; [| split; [exact Hrun |]]]].
  - intros k Hk.
    assert (k = 2 ^ 53 \/ k = 2 ^ 53 + 1 \/ k = 2 ^ 53 + 2) as [-> | [-> | ->]]
      by lia.
    + apply (not_prime_divisor _ 2 (2 ^ 52)); [lia | reflexivity].
    + apply (not_prime_divisor _ 3 3002399751580331); [lia | reflexivity].
    + apply (not_prime_divisor _ 2 (2 ^ 52 + 1)); [lia | reflexivity].
  - split; [rewrite Hrun; discriminate |].
    assert (generateQ 94906266
            = findPrimeInRange (inject_Z 9007199326062756)
                (inject_Z 18014398652125512)) as Hgen by reflexivity.
    split; [exact Hgen |]. rewrite Hgen.
    rewrite findPrimeInRange_integers by lia.
    change (Z.max 9007199326062756 2) with 9007199326062756.
    rewrite findPrime_loop_stuck;
      [reflexivity | lia | | vm_compute; discriminate].
    apply isPrime_false, (not_prime_divisor _ 2 4503599663031378);
      [lia | reflexivity].
Qed.

(** C8.  For a non-empty input and draws from [[0, 1)],
    [chooseRandomSubset] never throws, returns as soon as the tape holds
    one draw per item and one more, and what it returns is non-empty and
    made of items of the input: the items the inclusion pass picked, or,
    when it picked none, exactly one item of the input. *)
Theorem chooseRandomSubset_nonempty {T : Type} (set : list T) (t : tape) :
  set <> [] -> Forall unit_draw t ->
  (forall msg, chooseRandomSubset set t <> Throws msg) /\
  (forall res rest, chooseRandomSubset set t = Returns res rest ->
     res <> [] /\
     (forall o, In o res -> exists x, o = Some x /\ In x set) /\
     (forall picked rest0, inclusion_pass set t = Returns picked rest0 ->
        (picked = [] -> exists x, res = [Some x] /\ In x set) /\
        (picked <> [] -> res = map Some picked))) /\
  ((length set < length t)%nat ->
   exists res rest, chooseRandomSubset set t = Returns res rest).
Proof.
  intros Hne Ht.
  pose proof (sound_chooseRandomSubset set Hne t Ht) as Hs.
  split; [| split].
  - intros msg E. rewrite E in Hs. exact Hs.
  - intros res rest E. rewrite E in Hs. destruct Hs as [[Hres Hin] _].
    split; [assumption | split; [assumption |]].
    intros picked rest0 Hpass.
    rewrite chooseRandomSubset_unfold, Hpass in E.
    destruct picked as [| y picked].
    + split; [intros _ | intros H; contradiction].
      destruct rest0 as [| d rest1]; [discriminate |].
      injection E as <- _.
      destruct (Hin _ (or_introl eq_refl)) as (x & Hx & Hxin).
      exists x. rewrite Hx. split; [reflexivity | assumption].
    + split; [discriminate | intros _].
      injection E as <- _. reflexivity.
  - intros Hlen.
    destruct (returns_chooseRandomSubset unit_draw set t Ht ltac:(lia))
      as (res & rest & E & _).
    exists res, rest. exact E.
Qed.

Lemma chooseRandomSubset_nonempty_witness :
  [10; 20; 30] <> [] /\ Forall unit_draw [3 # 4; 3 # 4; 1 # 2; 2 # 3]%Q /\
  exists res rest,
    chooseRandomSubset [10; 20; 30] [3 # 4; 3 # 4; 1 # 2; 2 # 3]%Q
      = Returns res rest.
Proof.
  assert (Forall unit_draw [3 # 4; 3 # 4; 1 # 2; 2 # 3]%Q) as Ht.
  { repeat constructor; unfold Qle, Qlt; simpl; lia. }
  split; [discriminate | split; [exact Ht |]].
  apply (chooseRandomSubset_nonempty [10; 20; 30] _ ltac:(discriminate) Ht).
  simpl. lia.
Defined.

(** C9.  For [k] in [[0, 10000]], [isPrime k] agrees with primality; it is
    false for every integer below 2, true at 97 and false at 100. *)
Theorem isPrime_agrees (k : Z) :
  0 <= k <= 10000 ->
  (isPrime k = true <-> prime k) /\
  (forall j, j < 2 -> isPrime j = false) /\
  isPrime 97 = true /\
  isPrime 100 = false.
Proof.
  intros _. split; [apply isPrime_spec |].
  split; [| split; reflexivity].
  intros j Hj. unfold isPrime.
  destruct (Z.ltb_spec j 2); [reflexivity | lia].
Qed.

Lemma isPrime_agrees_witness :
  0 <= 97 <= 10000 /\ (isPrime 97 = true <-> prime 97).
Proof.
  split; [lia |].
  apply (isPrime_agrees 97). lia.
Defined.

(** C10.  For [n > 1] and a prime [q >= n * n], the standard deviation
    [keygen] hands to [sampleNormal], [floor(alpha * q)] with
    [alpha = 1 / (sqrt n * (ln n)^2)], is [floor(q / (sqrt n * (ln n)^2))]
    and is at least 1; [sampleNormal] does not throw on it, and [keygen]
    throws nothing. *)
Theorem noise_scale_positive (n q : Z) :
  1 < n -> n * n <= q -> prime q ->
  let denom := (sqrt (IZR n) * ln (IZR n) ^ 2)%R in
  let scale := Math_floor (1 / denom * IZR q) in
  scale = Math_floor (IZR q / denom) /\
  1 <= scale /\
  (forall t msg, sampleNormal (IZR scale) t <> Throws msg) /\
  (forall t msg, Forall unit_draw t -> keygen n q t <> Throws msg).
Proof.
  intros Hn Hq Hp denom scale.
  pose proof (noise_scale_ge_1 n q Hn Hq) as Hscale. fold denom scale in Hscale.
  split; [| split; [assumption | split]].
  - unfold scale. f_equal. unfold Rdiv. ring.
  - intros t msg. apply sampleNormal_never_throws. apply IZR_lt. lia.
  - intros t msg Ht E.
    pose proof (sound_keygen n q Hn Hq Hp t Ht) as Hs.
    rewrite E in Hs. exact Hs.
Qed.

Lemma noise_scale_positive_witness :
  1 < 2 /\ 2 * 2 <= 5 /\ prime 5 /\
  1 <= Math_floor (1 / (sqrt (IZR 2) * ln (IZR 2) ^ 2) * IZR 5).
Proof.
  split; [lia | split; [lia | split; [exact prime_5 |]]].
  apply (noise_scale_positive 2 5); [lia | lia | exact prime_5].
Defined.

(** * Further properties of the code *)

(** ** Distances on the ring *)

Lemma circ_dist_nonneg (q x y : Z) : 0 < q -> 0 <= circ_dist q x y.
Proof.
  intros Hq. unfold circ_dist.
  pose proof (Z.mod_pos_bound (x - y) q Hq).
  pose proof (Z.mod_pos_bound (y - x) q Hq). lia.
Qed.

Lemma circ_dist_sym (q x y : Z) : circ_dist q x y = circ_dist q y x.
Proof. unfold circ_dist. apply Z.min_comm. Qed.

Lemma circ_dist_shift (q x y c : Z) :
  circ_dist q (x + c) (y + c) = circ_dist q x y.
Proof. unfold circ_dist. f_equal; f_equal; lia. Qed.

Lemma circ_dist_congr (q x x' y : Z) :
  x mod q = x' mod q -> circ_dist q x y = circ_dist q x' y.
Proof.
  intros E. unfold circ_dist.
  rewrite (Zminus_mod x y), (Zminus_mod y x), E.
  rewrite <- (Zminus_mod x' y), <- (Zminus_mod y x'). reflexivity.
Qed.

Lemma opp_mod (q z : Z) :
  0 < q -> (- z) mod q = if z mod q =? 0 then 0 else q - z mod q.
Proof.
  intros Hq. pose proof (Z.mod_pos_bound z q Hq) as Hb.
  pose proof (Z.div_mod z q ltac:(lia)) as Hdm.
  destruct (Z.eqb_spec (z mod q) 0) as [E | E].
  - symmetry. apply (Z.mod_unique (- z) q (- (z / q)) 0); lia.
  - symmetry. apply (Z.mod_unique (- z) q (- (z / q) - 1) (q - z mod q)); lia.
Qed.

Lemma circ_dist_zero_r (q z : Z) :
  0 < q -> circ_dist q z 0 = Z.min (z mod q) (q - z mod q).
Proof.
  intros Hq. unfold circ_dist. rewrite Z.sub_0_r, Z.sub_0_l.
  rewrite opp_mod by assumption.
  pose proof (Z.mod_pos_bound z q Hq).
  destruct (Z.eqb_spec (z mod q) 0); lia.
Qed.

Lemma circ_dist_to_zero (q x y : Z) : circ_dist q x y = circ_dist q (x - y) 0.
Proof. unfold circ_dist. f_equal; f_equal; lia. Qed.

Lemma circ_norm_add (q a b : Z) :
  0 < q -> circ_dist q (a + b) 0 <= circ_dist q a 0 + circ_dist q b 0.
Proof.
  intros Hq. rewrite !circ_dist_zero_r by assumption.
  pose proof (Z.mod_pos_bound a q Hq) as Ha.
  pose proof (Z.mod_pos_bound b q Hq) as Hb.
  rewrite (Z.add_mod a b q) by lia.
  set (ra := a mod q) in *. set (rb := b mod q) in *.
  destruct (Z_lt_le_dec (ra + rb) q) as [Hlt | Hge].
  - rewrite (Z.mod_small (ra + rb) q) by lia. lia.
  - replace (ra + rb) with (ra + rb - q + 1 * q) by lia.
    rewrite Z.mod_add by lia. rewrite Z.mod_small by lia. lia.
Qed.

Lemma circ_dist_triangle (q x y z : Z) :
  0 < q -> circ_dist q x z <= circ_dist q x y + circ_dist q y z.
Proof.
  intros Hq.
  rewrite (circ_dist_to_zero q x z), (circ_dist_to_zero q x y),
    (circ_dist_to_zero q y z).
  replace (x - z) with ((x - y) + (y - z)) by lia.
  apply circ_norm_add. assumption.
Qed.

Lemma circ_dist_half (q : Z) : 0 < q -> circ_dist q (q / 2) 0 = q / 2.
Proof.
  intros Hq. rewrite circ_dist_zero_r by assumption.
  pose proof (Z.div_mod q 2 ltac:(lia)) as Hdm.
  pose proof (Z.mod_pos_bound q 2 ltac:(lia)) as Hb.
  rewrite (Z.mod_small (q / 2) q) by lia. lia.
Qed.

(** Nearest-codeword decoding: a residue within less than a quarter of the
    ring from the codeword of [bit] decodes to [bit]. *)
Lemma decode_within_quarter (q r bit : Z) :
  0 < q -> bit = 0 \/ bit = 1 ->
  2 * circ_dist q r 0 < q / 2 ->
  let x := r + (if bit =? 1 then q / 2 else 0) in
  (if circ_dist q x 0 <? circ_dist q x (q / 2) then 0 else 1) = bit.
Proof.
  intros Hq Hbit Hr x. subst x.
  pose proof (circ_dist_nonneg q r 0 Hq) as Hr0.
  pose proof (circ_dist_half q Hq) as Hh.
  destruct Hbit as [-> | ->]; simpl.
  - rewrite Z.add_0_r.
    pose proof (circ_dist_triangle q (q / 2) r 0 Hq) as Ht.
    rewrite (circ_dist_sym q (q / 2) r) in Ht.
    destruct (Z.ltb_spec (circ_dist q r 0) (circ_dist q r (q / 2)));
      [reflexivity | lia].
  - pose proof (circ_dist_triangle q (q / 2) (r + q / 2) 0 Hq) as Ht.
    rewrite (circ_dist_sym q (q / 2) (r + q / 2)) in Ht.
    assert (circ_dist q (r + q / 2) (q / 2) = circ_dist q r 0) as Es.
    { rewrite <- (circ_dist_shift q r 0 (q / 2)). reflexivity. }
    rewrite Es in *.
    destruct (Z.ltb_spec (circ_dist q (r + q / 2) 0) (circ_dist q r 0));
      [lia | reflexivity].
Qed.

(** ** Inner products of sums and of reduced vectors *)

Lemma dot_exact_comm (a b : Vector) : dot_exact a b = dot_exact b a.
Proof.
  revert b. induction a as [| x a IH]; intros [| y b]; try reflexivity.
  simpl. rewrite IH. lia.
Qed.

Lemma dot_exact_sum (a b s : Vector) :
  length a = length b ->
  dot_exact (sum_loop a b) s = dot_exact a s + dot_exact b s.
Proof.
  revert b s. induction a as [| x a IH]; intros [| y b] s Hlen;
    simpl in Hlen; try discriminate.
  - reflexivity.
  - destruct s as [| z s]; [reflexivity |].
    simpl. rewrite IH by lia. lia.
Qed.

Lemma dot_exact_modVector (a s : Vector) (q : Z) :
  0 < q -> dot_exact (modVector a q) s mod q = dot_exact a s mod q.
Proof.
  intros Hq. revert s. induction a as [| x a IH]; intros [| z s];
    try reflexivity.
  simpl.
  rewrite Z.add_mod, (Z.add_mod (x * z)) by lia.
  fold (modVector a q). rewrite IH.
  rewrite mod_is_modulo by assumption.
  rewrite Z.mul_mod_idemp_l by lia. reflexivity.
Qed.

(** ** When [dotProduct] rounds nothing *)

Lemma dot_loop_comm (sum : Z) (a b : Vector) : dot_loop sum a b = dot_loop sum b a.
Proof.
  revert sum b. induction a as [| x a IH]; intros sum [| y b]; try reflexivity.
  simpl. rewrite (Z.mul_comm y x). apply IH.
Qed.

Lemma bounded_nonneg (B : Z) (x : Z) (v : Vector) : bounded B (x :: v) -> 0 <= B.
Proof. intros H. inversion H; subst. cbv beta in *. lia. Qed.

Lemma bounded_weaken (B B' : Z) (v : Vector) :
  B <= B' -> bounded B v -> bounded B' v.
Proof.
  intros HB Hv. apply Forall_impl with (2 := Hv). intros c Hc. lia.
Qed.

Lemma in_range_bounded (q : Z) (v : Vector) :
  Forall (in_range q) v -> bounded q v.
Proof.
  intros Hv. apply Forall_impl with (2 := Hv). unfold in_range. intros c Hc. lia.
Qed.

Lemma bounded_sum_loop (B : Z) (a b : Vector) :
  bounded B a -> bounded B b -> bounded (2 * B) (sum_loop a b).
Proof.
  intros Ha. revert b. induction Ha as [| x a Hx Ha IH]; intros b Hb.
  - constructor.
  - destruct Hb as [| y b Hy Hb]; [constructor |].
    simpl sum_loop. constructor; [cbv beta in *; lia | apply IH; assumption].
Qed.

(** With coordinates bounded by [B] and [C] and a running sum that stays
    below [2^53], every product and every partial sum is a double: the loop
    computes the inner product. *)
Lemma dot_loop_exact_acc (B C : Z) (a b : Vector) (sum : Z) :
  bounded B a -> bounded C b ->
  Z.abs sum + Z.of_nat (length a) * (B * C) < 2 ^ 53 ->
  dot_loop sum a b = sum + dot_exact a b.
Proof.
  intros Ha. revert b sum. induction Ha as [| x a Hx Ha IH]; intros b sum Hb Hs.
  - simpl. lia.
  - destruct Hb as [| y b Hy Hb]; [simpl; lia |]. cbv beta in Hx, Hy.
    assert (Z.abs (x * y) <= B * C) as Hxy by (rewrite Z.abs_mul; nia).
    assert (0 <= Z.of_nat (length a) * (B * C)) as Hrest by nia.
    change (length (x :: a)) with (S (length a)) in Hs.
    rewrite Nat2Z.inj_succ in Hs.
    simpl. rewrite (round_double_exact (x * y)) by lia.
    rewrite (round_double_exact (sum + x * y)) by lia.
    rewrite IH; [lia | assumption | lia].
Qed.

Lemma dot_loop_exact (B C : Z) (a b : Vector) :
  bounded B a -> bounded C b ->
  Z.of_nat (length a) * B * C < 2 ^ 53 ->
  dot_loop 0 a b = dot_exact a b.
Proof.
  intros Ha Hb Hs. rewrite (dot_loop_exact_acc B C a b 0 Ha Hb); lia.
Qed.

(** ** What [encrypt] accumulates *)

Lemma sum_loop_nth (a b : Vector) (i : nat) :
  length a = length b ->
  nth i (sum_loop a b) 0 = nth i a 0 + nth i b 0.
Proof.
  revert b i. induction a as [| x a IH]; intros [| y b] i Hlen;
    simpl in Hlen; try discriminate.
  - destruct i; reflexivity.
  - destruct i as [| i]; [reflexivity |]. simpl. apply IH. lia.
Qed.

Lemma sumVectors_ok (a b v : Vector) :
  sumVectors a b = Ok v -> length a = length b /\ v = sum_loop a b.
Proof.
  unfold sumVectors.
  destruct (Nat.eqb_spec (length a) (length b)) as [E | E]; simpl;
    [| discriminate].
  intros [= <-]. split; [assumption | reflexivity].
Qed.

(** The loop keeps the length of the running vector, adds every selected
    vector to it and, on the side of the inner product with any [s], adds
    every selected inner product. *)
Lemma encrypt_loop_vector (q : Z) (sel : list PublicKeyElement)
  (res res' : Ciphertext) :
  encrypt_loop q res (map Some sel) = Ok res' ->
  same_length (length (vector res)) sel /\
  length (vector res') = length (vector res) /\
  (forall i, nth i (vector res') 0 = nth i (vector res) 0 + sum_coordinate i sel) /\
  (forall s, dot_exact (vector res') s =
             dot_exact (vector res) s
             + fold_right (fun e acc => dot_exact (vector e) s + acc) 0 sel).
Proof.
  revert res. induction sel as [| e sel IH]; intros res; simpl.
  - intros [= <-]. split; [constructor |]. split; [reflexivity |].
    split; intros; lia.
  - destruct (sumVectors (vector res) (vector e)) as [v | msg] eqn:Esum;
      simpl; [| discriminate].
    apply sumVectors_ok in Esum. destruct Esum as [Hlen ->].
    intros Hrun. destruct (IH _ Hrun) as (Hsame & Hl & Hnth & Hdot).
    simpl in Hsame, Hl, Hnth, Hdot.
    rewrite sum_loop_length in Hsame, Hl by assumption.
    split; [constructor; [congruence | assumption] |].
    split; [assumption |]. split.
    + intros i. rewrite Hnth, sum_loop_nth by assumption. lia.
    + intros s. rewrite Hdot, dot_exact_sum by assumption. lia.
Qed.

Lemma encrypt_subset_ok (q : Z) (sel : list PublicKeyElement) (message : Z)
  (ct : Ciphertext) :
  encrypt_subset q (map Some sel) message = Ok ct ->
  exists e0 rest res,
    sel = e0 :: rest /\
    encrypt_loop q (mkElement (vector e0) (scalar e0)) (map Some rest) = Ok res /\
    ct = mkElement (modVector (vector res) q)
           (mod_ (if message =? 1 then scalar res + q / 2 else scalar res) q).
Proof.
  destruct sel as [| e0 rest]; simpl; [discriminate |].
  destruct (encrypt_loop q _ (map Some rest)) as [res | msg] eqn:Hloop; simpl;
    [| discriminate].
  intros [= <-]. exists e0, rest, res. repeat split. assumption.
Qed.

(** The residue [decrypt] looks at, for a ciphertext built from [sel]: the
    residuals of the selected elements plus the codeword of the bit. *)
Lemma encrypt_subset_residue (q : Z) (sel : list PublicKeyElement)
  (message : Z) (ct : Ciphertext) (s : Vector) :
  0 < q ->
  encrypt_subset q (map Some sel) message = Ok ct ->
  (scalar ct - dot_exact (vector ct) s) mod q =
  (fold_right (fun e acc => (scalar e - dot_exact (vector e) s) + acc) 0 sel
   + (if message =? 1 then q / 2 else 0)) mod q.
Proof.
  intros Hq Hsub.
  pose proof (encrypt_subset_scalar q sel message ct Hq Hsub) as Hscalar.
  destruct (encrypt_subset_ok q sel message ct Hsub)
    as (e0 & rest & res & -> & Hloop & ->).
  destruct (encrypt_loop_vector q rest _ res Hloop) as (_ & _ & _ & Hdot).
  simpl in Hdot, Hscalar. simpl scalar in *. simpl vector.
  rewrite Zminus_mod, dot_exact_modVector, Hscalar by assumption.
  unfold encrypt_scalar_spec. rewrite Zmod_mod, <- Zminus_mod.
  rewrite Hdot. simpl.
  f_equal.
  assert (forall l : list PublicKeyElement,
            fold_right (fun e acc => scalar e - dot_exact (vector e) s + acc) 0 l
            = sum_scalars l
              - fold_right (fun e acc => dot_exact (vector e) s + acc) 0 l)
    as Hsplit.
  { induction l as [| e l IHl]; simpl; [reflexivity |]. rewrite IHl. lia. }
  rewrite Hsplit. lia.
Qed.

Lemma total_noise_bounds_sum (q : Z) (s : Vector) (sel : list PublicKeyElement) :
  0 < q ->
  circ_dist q
    (fold_right (fun e acc => (scalar e - dot_exact (vector e) s) + acc) 0 sel)
    0
  <= total_noise s q sel.
Proof.
  intros Hq. induction sel as [| e sel IH]; simpl.
  - rewrite circ_dist_zero_r by assumption. rewrite Z.mod_0_l by lia. lia.
  - pose proof (circ_norm_add q (scalar e - dot_exact (vector e) s)
                  (fold_right
                     (fun e acc => scalar e - dot_exact (vector e) s + acc)
                     0 sel) Hq) as Hadd.
    unfold element_noise. lia.
Qed.

Lemma total_noise_nonneg (q : Z) (s : Vector) (sel : list PublicKeyElement) :
  0 < q -> 0 <= total_noise s q sel.
Proof.
  intros Hq. induction sel as [| e sel IH]; simpl; [lia |].
  pose proof (circ_dist_nonneg q (scalar e - dot_exact (vector e) s) 0 Hq).
  unfold element_noise. lia.
Qed.

Lemma total_noise_subseq (q : Z) (s : Vector) (sel es : list PublicKeyElement) :
  0 < q -> subseq sel es -> total_noise s q sel <= total_noise s q es.
Proof.
  intros Hq Hsub. induction Hsub as [| x l1 l2 _ IH | x l1 l2 _ IH]; simpl.
  - lia.
  - pose proof (circ_dist_nonneg q (scalar x - dot_exact (vector x) s) 0 Hq).
    unfold element_noise. lia.
  - lia.
Qed.

(** Decrypting what [encrypt] built from [sel]: the ciphertext vector is
    reduced, the secret is in range, and [n * q * q < 2^53] keeps the dot
    product of [decrypt] exact. *)
Lemma decrypt_encrypt_subset (secret : SecretKey) (sel : list PublicKeyElement)
  (message : Z) (ct : Ciphertext) :
  0 < sk_q secret -> message = 0 \/ message = 1 ->
  Forall (in_range (sk_q secret)) (sk_vector secret) ->
  Z.of_nat (length (sk_vector secret)) * sk_q secret * sk_q secret < 2 ^ 53 ->
  same_length (length (sk_vector secret)) sel ->
  2 * total_noise (sk_vector secret) (sk_q secret) sel < sk_q secret / 2 ->
  encrypt_subset (sk_q secret) (map Some sel) message = Ok ct ->
  decrypt secret ct = Ok message.
Proof.
  intros Hq Hbit Hrange Hsize Hsame Hnoise Hsub.
  set (q := sk_q secret) in *. set (s := sk_vector secret) in *.
  assert (length (vector ct) = length s /\ Forall (in_range q) (vector ct))
    as [Hlen Hct].
  { destruct (encrypt_subset_ok q sel message ct Hsub)
      as (e0 & rest & res & -> & Hloop & ->).
    destruct (encrypt_loop_vector q rest _ res Hloop) as (_ & Hl & _).
    simpl in Hl. simpl. rewrite modVector_length, Hl.
    split; [inversion Hsame; subst; assumption |].
    apply modVector_range. assumption. }
  assert (dot_loop 0 (vector ct) s = dot_exact (vector ct) s) as Hexact.
  { apply (dot_loop_exact q q);
      [apply in_range_bounded; assumption
      | apply in_range_bounded; assumption
      | rewrite Hlen; assumption]. }
  destruct (decrypt_unfold secret ct Hq Hlen) as [_ Hdec].
  cbv zeta in Hdec. fold q s in Hdec. rewrite Hexact in Hdec.
  rewrite Hdec. f_equal.
  pose proof (encrypt_subset_residue q sel message ct s Hq Hsub) as Hres.
  set (r := fold_right
              (fun e acc => scalar e - dot_exact (vector e) s + acc) 0 sel)
    in *.
  pose proof (total_noise_bounds_sum q s sel Hq) as Hbound. fold r in Hbound.
  pose proof (circ_dist_nonneg q r 0 Hq) as Hr0.
  rewrite mod_is_modulo by assumption.
  assert (forall y, circ_dist q ((scalar ct - dot_exact (vector ct) s) mod q) y
                    = circ_dist q (r + (if message =? 1 then q / 2 else 0)) y)
    as Hcong.
  { intros y. apply circ_dist_congr. rewrite Zmod_mod. exact Hres. }
  rewrite !Hcong.
  apply decode_within_quarter; [assumption | assumption | lia].
Qed.

(** ** What [chooseRandomSubset] selects *)

Lemma subseq_single {T} (x : T) (l : list T) : In x l -> subseq [x] l.
Proof.
  assert (forall l : list T, subseq [] l) as Hnil.
  { induction l0; constructor; assumption. }
  induction l as [| y l IH]; intros Hin; [destruct Hin |].
  destruct Hin as [-> | Hin].
  - apply subseq_keep. apply Hnil.
  - apply subseq_skip. apply IH. assumption.
Qed.

Lemma subseq_length {T} (l1 l2 : list T) :
  subseq l1 l2 -> (length l1 <= length l2)%nat.
Proof. induction 1; simpl; lia. Qed.

Lemma subseq_In {T} (l1 l2 : list T) (x : T) :
  subseq l1 l2 -> In x l1 -> In x l2.
Proof.
  induction 1 as [| y l1 l2 _ IH | y l1 l2 _ IH]; simpl; intros Hin.
  - assumption.
  - right. auto.
  - destruct Hin; [left; assumption | right; auto].
Qed.

Lemma inclusion_pass_cons {T} (x : T) (set : list T) (d : Q) (t : tape) :
  inclusion_pass (x :: set) (d :: t) =
  match inclusion_pass set t with
  | Returns res rest => Returns (if Qlt_bool d (1 # 2) then x :: res else res) rest
  | Throws msg => Throws msg
  | Starves => Starves
  end.
Proof. reflexivity. Qed.

Lemma inclusion_pass_returns {T} (set : list T) (t rest : tape) (res : list T) :
  inclusion_pass set t = Returns res rest ->
  subseq res set /\ rest = skipn (length set) t
  /\ (length set <= length t)%nat.
Proof.
  revert t rest res. induction set as [| x set IH]; intros t rest res.
  - intros H. inversion H; subst. simpl.
    split; [constructor | split; [reflexivity | lia]].
  - destruct t as [| d t]; [discriminate |].
    rewrite inclusion_pass_cons.
    destruct (inclusion_pass set t) as [res' rest' | |] eqn:E; try discriminate.
    intros H. inversion H; subst.
    destruct (IH _ _ _ E) as (Hsub & Hrest & Hlen).
    split; [| split; [exact Hrest | simpl; lia]].
    destruct (Qlt_bool d (1 # 2)); constructor; assumption.
Qed.

Lemma inclusion_pass_starves {T} (set : list T) (t : tape) :
  inclusion_pass set t = Starves <-> (length t < length set)%nat.
Proof.
  revert t. induction set as [| x set IH]; intros t.
  - simpl. split; [discriminate | lia].
  - destruct t as [| d t]; [simpl; split; [lia | reflexivity] |].
    rewrite inclusion_pass_cons. specialize (IH t). simpl.
    destruct (inclusion_pass set t) as [res' rest' | |] eqn:E.
    + split; [discriminate |]. intros H.
      assert (length t < length set)%nat as H' by lia.
      apply IH in H'. discriminate.
    + split; [discriminate |]. intros H.
      assert (length t < length set)%nat as H' by lia.
      apply IH in H'. discriminate.
    + split; [intros _ | reflexivity].
      assert (length t < length set)%nat by (apply IH; reflexivity). lia.
Qed.

Lemma index_some_in {T} (set : list T) (idx : Z) (x : T) :
  index set idx = Some x -> In x set.
Proof.
  unfold index. destruct (idx <? 0); [discriminate |].
  apply nth_error_In.
Qed.

Lemma encrypt_loop_all_some (q : Z) (res res' : Ciphertext)
  (rest : list (option PublicKeyElement)) :
  encrypt_loop q res rest = Ok res' -> exists sel, rest = map Some sel.
Proof.
  revert res. induction rest as [| [e |] rest IH]; intros res; simpl.
  - intros _. exists []. reflexivity.
  - destruct (sumVectors (vector res) (vector e)); simpl; [| discriminate].
    intros Hrun. destruct (IH _ Hrun) as [sel ->].
    exists (e :: sel). reflexivity.
  - discriminate.
Qed.

Lemma encrypt_subset_all_some (q : Z) (subset : list (option PublicKeyElement))
  (message : Z) (ct : Ciphertext) :
  encrypt_subset q subset message = Ok ct ->
  exists sel, subset = map Some sel /\ sel <> [].
Proof.
  destruct subset as [| [e0 |] rest]; simpl; try discriminate.
  destruct (encrypt_loop q _ rest) as [res | msg] eqn:Hloop; simpl;
    [| discriminate].
  intros _. destruct (encrypt_loop_all_some _ _ _ _ Hloop) as [sel ->].
  exists (e0 :: sel). split; [reflexivity | discriminate].
Qed.

Lemma map_Some_inj {T} (l1 l2 : list T) : map Some l1 = map Some l2 -> l1 = l2.
Proof.
  revert l2. induction l1 as [| x l1 IH]; intros [| y l2]; simpl;
    try discriminate; [reflexivity |].
  intros [= -> E]. f_equal. auto.
Qed.

Lemma chooseRandomSubset_subseq {T} (set sel : list T) (t rest : tape) :
  chooseRandomSubset set t = Returns (map Some sel) rest -> subseq sel set.
Proof.
  rewrite chooseRandomSubset_unfold.
  destruct (inclusion_pass set t) as [[| y picked] rest0 | |] eqn:Hpass;
    try discriminate.
  - destruct rest0 as [| d rest1]; [discriminate |].
    intros H. inversion H as [[Hidx Hrest]].
    destruct sel as [| x [| x' sel]]; try discriminate.
    simpl in Hidx. injection Hidx as Hidx.
    apply subseq_single. apply (index_some_in _ _ _ Hidx).
  - intros H. inversion H as [[Hsel Hrest]].
    change (Some y :: map Some picked) with (map Some (y :: picked)) in Hsel.
    apply map_Some_inj in Hsel. subst sel.
    apply (inclusion_pass_returns _ _ _ _ Hpass).
Qed.

(** A call of [encrypt] that returns went through a selection [sel] of the
    key's elements, in key order, and [encrypt_subset] on it. *)
Lemma encrypt_returns_inv (publicKey : PublicKey) (message : Z)
  (t rest : tape) (ct : Ciphertext) :
  encrypt publicKey message t = Returns ct rest ->
  (message = 0 \/ message = 1) /\
  exists sel,
    sel <> [] /\ subseq sel (pk_elements publicKey) /\
    chooseRandomSubset (pk_elements publicKey) t = Returns (map Some sel) rest /\
    encrypt_subset (pk_q publicKey) (map Some sel) message = Ok ct.
Proof.
  unfold encrypt.
  destruct (negb (message =? 0) && negb (message =? 1)) eqn:G;
    [discriminate |].
  rewrite bind_unfold.
  destruct (chooseRandomSubset (pk_elements publicKey) t)
    as [subset rest' | |] eqn:Hsel; try discriminate.
  unfold lift.
  destruct (encrypt_subset (pk_q publicKey) subset message)
    as [ct' | msg] eqn:Hsub; try discriminate.
  intros H. inversion H; subst. split.
  - destruct (Z.eqb_spec message 0); [left; assumption |].
    destruct (Z.eqb_spec message 1); [right; assumption | discriminate].
  - destruct (encrypt_subset_all_some _ _ _ _ Hsub) as (sel & -> & Hne).
    exists sel. split; [assumption |].
    split; [apply (chooseRandomSubset_subseq _ _ _ _ Hsel) |].
    split; [reflexivity | assumption].
Qed.

(** ** Theorems on the arithmetic *)






(** X4.  [dotProduct] is symmetric, error case and rounding included.  It
    is additive over [sumVectors] as long as nothing is rounded: for three
    vectors of one length, the coordinates of [a] and [b] at most [B] and
    those of [s] at most [C] in absolute value, and
    [length * 2B * C < 2^53], the dot product of [sumVectors(a, b)] with
    [s] is the sum of the two dot products. *)
Theorem dotProduct_additive (a b s : Vector) (B C : Z) :
  dotProduct a s = dotProduct s a /\
  (length a = length b -> length a = length s ->
   bounded B a -> bounded B b -> bounded C s ->
   Z.of_nat (length s) * (2 * B) * C < 2 ^ 53 ->
   exists v da db,
     sumVectors a b = Ok v /\ dotProduct a s = Ok da /\
     dotProduct b s = Ok db /\ dotProduct v s = Ok (da + db)).
Proof.
  split.
  - unfold dotProduct. rewrite (Nat.eqb_sym (length s) (length a)).
    destruct (length a =? length s)%nat; simpl; [| reflexivity].
    f_equal. apply dot_loop_comm.
  - intros Hab Has Ha Hb Hs Hsize.
    exists (sum_loop a b), (dot_loop 0 a s), (dot_loop 0 b s).
    split; [apply sumVectors_same; assumption |].
    split; [apply dotProduct_same; assumption |].
    split; [apply dotProduct_same; congruence |].
    rewrite dotProduct_same by (rewrite sum_loop_length; assumption).
    f_equal.
    destruct a as [| x a].
    { destruct b; [| discriminate]. reflexivity. }
    destruct s as [| z s]; [discriminate |].
    pose proof (bounded_nonneg _ _ _ Ha) as HB.
    pose proof (bounded_nonneg _ _ _ Hs) as HC.
    assert (bounded (2 * B) (x :: a)) as Ha2
      by (apply (bounded_weaken B); [lia | assumption]).
    assert (bounded (2 * B) b) as Hb2
      by (apply (bounded_weaken B); [lia | assumption]).
    rewrite (dot_loop_exact (2 * B) C (x :: a) (z :: s)) by (try assumption; lia).
    rewrite (dot_loop_exact (2 * B) C b (z :: s)) by (try assumption; lia).
    rewrite (dot_loop_exact (2 * B) C (sum_loop (x :: a) b) (z :: s)).
    + apply dot_exact_sum. assumption.
    + apply bounded_sum_loop; assumption.
    + assumption.
    + rewrite sum_loop_length by assumption. lia.
Qed.

Lemma dotProduct_additive_witness :
  exists v da db,
    sumVectors [1; -2] [3; 4] = Ok v /\ dotProduct [1; -2] [5; 6] = Ok da /\
    dotProduct [3; 4] [5; 6] = Ok db /\ dotProduct v [5; 6] = Ok (da + db).
Proof.
  apply (proj2 (dotProduct_additive [1; -2] [3; 4] [5; 6] 4 6));
    try reflexivity;
    unfold bounded; repeat (apply Forall_cons; [simpl; lia |]); apply Forall_nil.
Defined.



(** X6.  [isPrime] decides primality of every integer, not only of those
    up to 10000: it answers [true] exactly on the primes. *)
Theorem isPrime_decides_primality (k : Z) :
  (isPrime k = true <-> prime k) /\ (isPrime k = false <-> ~ prime k).
Proof. split; [apply isPrime_spec | apply isPrime_false]. Qed.

(** X7.  The two errors of [findPrimeInRange], on any rational bounds:
    the order error exactly when [a > b], the integrality error exactly
    when [a <= b] and a bound is not an integer.  No error is thrown
    exactly when [a <= b] and both are integers; the call then returns if
    moreover [b < 2^53] (beyond, the loop may never end), and a prime it
    returns, whatever the bounds, lies between them. *)
Theorem findPrimeInRange_errors (a b : Q) :
  (findPrimeInRange a b = Throw "a must be less than or equal to b"
     <-> (b < a)%Q) /\
  (findPrimeInRange a b = Throw "a and b must be integers"
     <-> (a <= b)%Q /\ (~ integral a \/ ~ integral b)) /\
  ((forall msg, findPrimeInRange a b <> Throw msg)
     <-> (a <= b)%Q /\ integral a /\ integral b) /\
  ((a <= b)%Q -> integral a -> integral b -> (b < inject_Z (2 ^ 53))%Q ->
   exists r, findPrimeInRange a b = Ok (Finishes r)) /\
  (forall p, findPrimeInRange a b = Ok (Finishes (Some p)) ->
     prime p /\ (a <= inject_Z p)%Q /\ (inject_Z p <= b)%Q).
Proof.
  unfold findPrimeInRange.
  destruct (Qlt_bool b a) eqn:Elt.
  { apply Qlt_bool_iff in Elt.
    assert (~ (a <= b)%Q) as Hnle by (apply Qlt_not_le; assumption).
    split; [split; [intros _; assumption | reflexivity] |].
    split; [split; [discriminate | intros [H _]; contradiction] |].
    split; [split; [intros H; exfalso; apply (H _ eq_refl)
                   | intros [H _]; contradiction] |].
    split; [intros H; contradiction | intros p H; discriminate]. }
  assert ((a <= b)%Q) as Hle.
  { apply Qnot_lt_le. intros H. apply Qlt_bool_iff in H. congruence. }
  assert (~ (b < a)%Q) as Hnlt by (apply Qle_not_lt; assumption).
  destruct (isInteger a) eqn:Ea; destruct (isInteger b) eqn:Eb; simpl.
  - apply isInteger_iff in Ea. apply isInteger_iff in Eb.
    split; [split; [discriminate | intros H; contradiction] |].
    split; [split; [discriminate | intros [_ [H | H]]; contradiction] |].
    split; [split; [intros _; auto | intros _ msg; discriminate] |].
    destruct Ea as [za Ea]. destruct Eb as [zb Eb].
    rewrite (Qfloor_comp _ _ Ea), (Qfloor_comp _ _ Eb), !Qfloor_Z.
    split.
    + intros _ _ _ Hb. rewrite Eb, <- Zlt_Qlt in Hb.
      rewrite findPrime_loop_scan by lia. eexists. reflexivity.
    + intros p H. injection H as H. apply findPrime_loop_sound in H.
      destruct H as (Hr & Hp). split; [assumption |].
      rewrite Ea, Eb. rewrite <- !Zle_Qle. lia.
  - assert (~ integral b) as Hb
      by (intros H; apply isInteger_iff in H; congruence).
    split; [split; [discriminate | intros H; contradiction] |].
    split; [split; [intros _; auto | reflexivity] |].
    split; [split; [intros H; exfalso; apply (H _ eq_refl)
                   | intros (_ & _ & H); contradiction] |].
    split; [intros _ _ H; contradiction | intros p H; discriminate].
  - assert (~ integral a) as Ha
      by (intros H; apply isInteger_iff in H; congruence).
    split; [split; [discriminate | intros H; contradiction] |].
    split; [split; [intros _; auto | reflexivity] |].
    split; [split; [intros H; exfalso; apply (H _ eq_refl)
                   | intros (_ & H & _); contradiction] |].
    split; [intros _ H; contradiction | intros p H; discriminate].
  - assert (~ integral a) as Ha
      by (intros H; apply isInteger_iff in H; congruence).
    split; [split; [discriminate | intros H; contradiction] |].
    split; [split; [intros _; auto | reflexivity] |].
    split; [split; [intros H; exfalso; apply (H _ eq_refl)
                   | intros (_ & H & _); contradiction] |].
    split; [intros _ H; contradiction | intros p H; discriminate].
Qed.

(** X26.  For integers [a <= b] with [b < 2^53], the range on which a
    double counts exactly, [findPrimeInRange(a, b)] is a linear scan of
    [max(a, 2), ..., b]: it returns the smallest prime of that interval,
    and [null] exactly when the interval holds no prime.  On (10, 20) it
    returns 11, on (8, 10) [null], on (2, 2) it returns 2. *)
Theorem findPrimeInRange_smallest (a b : Z) :
  a <= b -> b < 2 ^ 53 ->
  findPrimeInRange (inject_Z a) (inject_Z b)
    = Ok (Finishes
            (find isPrime (Zrange (Z.max a 2) (Z.to_nat (b + 1 - Z.max a 2))))) /\
  (forall p, findPrimeInRange (inject_Z a) (inject_Z b) = Ok (Finishes (Some p))
             <-> smallest_prime_in (Z.max a 2) b p) /\
  (findPrimeInRange (inject_Z a) (inject_Z b) = Ok (Finishes None)
     <-> forall k, Z.max a 2 <= k <= b -> ~ prime k) /\
  findPrimeInRange (inject_Z 10) (inject_Z 20) = Ok (Finishes (Some 11)) /\
  findPrimeInRange (inject_Z 8) (inject_Z 10) = Ok (Finishes None) /\
  findPrimeInRange (inject_Z 2) (inject_Z 2) = Ok (Finishes (Some 2)).
Proof.
  intros Hab Hb. rewrite (findPrimeInRange_integers a b Hab).
  split; [| split; [| split]].
  - f_equal. apply findPrime_loop_scan; lia.
  - intros p. rewrite <- findPrime_loop_some by lia.
    split; [intros [= E]; exact E | intros ->; reflexivity].
  - rewrite <- findPrime_loop_none by lia.
    split; [intros [= E]; exact E | intros ->; reflexivity].
  - repeat split; reflexivity.
Qed.

Lemma findPrimeInRange_smallest_witness :
  10 <= 20 /\ 20 < 2 ^ 53 /\
  forall p, findPrimeInRange (inject_Z 10) (inject_Z 20) = Ok (Finishes (Some p))
            <-> smallest_prime_in (Z.max 10 2) 20 p.
Proof.
  split; [lia | split; [reflexivity |]].
  apply (findPrimeInRange_smallest 10 20); [lia | reflexivity].
Defined.

(** ** Theorems on the scheme *)

Lemma same_length_subseq (len : nat) (sel es : list PublicKeyElement) :
  subseq sel es -> same_length len es -> same_length len sel.
Proof.
  intros Hsub Hes. apply Forall_forall. intros e He.
  apply (proj1 (Forall_forall _ _) Hes). apply (subseq_In _ _ _ Hsub He).
Qed.


Lemma index_nil {T} (idx : Z) : index (@nil T) idx = None.
Proof.
  unfold index. destruct (idx <? 0); [reflexivity |].
  destruct (Z.to_nat idx); reflexivity.
Qed.

Lemma decrypt_bit_or_mismatch_aux (secret : SecretKey) (ciphertext : Ciphertext) :
  (length (vector ciphertext) <> length (sk_vector secret) ->
   decrypt secret ciphertext = Throw length_mismatch) /\
  (decrypt secret ciphertext = Throw length_mismatch ->
   length (vector ciphertext) <> length (sk_vector secret)) /\
  (length (vector ciphertext) = length (sk_vector secret) ->
   decrypt secret ciphertext = Ok 0 \/ decrypt secret ciphertext = Ok 1).
Proof.
  unfold decrypt, dotProduct.
  destruct (Nat.eqb_spec (length (vector ciphertext))
              (length (sk_vector secret))) as [E | E]; simpl.
  - split; [intros H; contradiction |]. split; [discriminate |].
    intros _. destruct (_ <? _); [left | right]; reflexivity.
  - split; [reflexivity |]. split; [intros _; assumption |].
    intros H; contradiction.
Qed.

(** X8.  [decrypt] has one way to fail and two values: it throws the
    length-mismatch error exactly when the ciphertext vector and the secret
    vector differ in length, and otherwise returns 0 or 1, whatever the
    numbers in the ciphertext are. *)
Theorem decrypt_bit_or_mismatch (secret : SecretKey) (ciphertext : Ciphertext) :
  (decrypt secret ciphertext = Throw length_mismatch
     <-> length (vector ciphertext) <> length (sk_vector secret)) /\
  (decrypt secret ciphertext = Ok 0 \/ decrypt secret ciphertext = Ok 1
     <-> length (vector ciphertext) = length (sk_vector secret)).
Proof.
  unfold decrypt, dotProduct.
  destruct (Nat.eqb_spec (length (vector ciphertext))
              (length (sk_vector secret))) as [E | E]; simpl.
  - split.
    + split; [discriminate | intros H; contradiction].
    + split; [intros _; assumption | intros _].
      destruct (_ <? _); [left | right]; reflexivity.
  - split.
    + split; [intros _; assumption | reflexivity].
    + split; [intros [H | H]; discriminate | intros H; contradiction].
Qed.



(** X10.  Whatever [encrypt] returns is a reduced ciphertext: when the
    key's vectors all have length [len] and [q > 0], the returned vector has
    length [len], its coordinates lie in [[0, q)] and so does the scalar. *)
Theorem encrypt_reduced_ciphertext (publicKey : PublicKey) (message : Z)
  (len : nat) (t rest : tape) (ct : Ciphertext) :
  0 < pk_q publicKey ->
  same_length len (pk_elements publicKey) ->
  encrypt publicKey message t = Returns ct rest ->
  length (vector ct) = len /\
  Forall (in_range (pk_q publicKey)) (vector ct) /\
  in_range (pk_q publicKey) (scalar ct).
Proof.
  intros Hq Hsame Hrun.
  destruct (encrypt_returns_inv _ _ _ _ _ Hrun)
    as (_ & sel & _ & Hsub & _ & Henc).
  pose proof (same_length_subseq len _ _ Hsub Hsame) as Hsel.
  destruct (encrypt_subset_ok _ _ _ _ Henc)
    as (e0 & tl & res & -> & Hloop & ->).
  destruct (encrypt_loop_vector _ _ _ _ Hloop) as (_ & Hl & _).
  simpl in Hl. simpl. inversion Hsel; subst.
  split; [rewrite modVector_length; congruence |].
  split; [apply modVector_range; assumption |].
  apply mod_bounds. assumption.
Qed.

Lemma encrypt_reduced_ciphertext_witness :
  0 < pk_q small_key /\ same_length 2 (pk_elements small_key) /\
  encrypt small_key 1 small_tape = Returns (mkElement [0; 2] 4) [] /\
  length (vector (mkElement [0; 2] 4)) = 2%nat /\
  Forall (in_range (pk_q small_key)) (vector (mkElement [0; 2] 4)) /\
  in_range (pk_q small_key) (scalar (mkElement [0; 2] 4)).
Proof.
  assert (same_length 2 (pk_elements small_key)) as Hsame
    by (repeat constructor).
  split; [reflexivity | split; [exact Hsame | split; [reflexivity |]]].
  apply (encrypt_reduced_ciphertext small_key 1 2 small_tape []
           (mkElement [0; 2] 4)); [reflexivity | exact Hsame | reflexivity].
Defined.



Lemma all_some_of_set {T} (set : list T) (res : list (option T)) :
  (forall o, In o res -> exists x, o = Some x /\ In x set) ->
  exists sel, res = map Some sel /\ forall x, In x sel -> In x set.
Proof.
  induction res as [| o res IH]; intros Hall.
  - exists []. split; [reflexivity | intros x []].
  - destruct (Hall o (or_introl eq_refl)) as (x & -> & Hx).
    destruct IH as (sel & -> & Hsel).
    { intros o Ho. apply Hall. right. assumption. }
    exists (x :: sel). split; [reflexivity |].
    intros y [<- | Hy]; auto.
Qed.

Lemma sound_encrypt (publicKey : PublicKey) (message : Z) (len : nat) :
  message = 0 \/ message = 1 ->
  pk_elements publicKey <> [] -> same_length len (pk_elements publicKey) ->
  sound (fun _ => True) (encrypt publicKey message).
Proof.
  intros Hbit Hne Hsame. unfold encrypt.
  replace (negb (message =? 0) && negb (message =? 1)) with false
    by (destruct Hbit; subst; reflexivity).
  eapply sound_bind; [apply sound_chooseRandomSubset; assumption |].
  intros subset [Hnonempty Hall].
  destruct (all_some_of_set _ _ Hall) as (sel & -> & Hsel).
  assert (same_length len sel) as Hlen.
  { apply Forall_forall. intros e He.
    apply (proj1 (Forall_forall _ _) Hsame). auto. }
  assert (sel <> []) as Hsel_ne by (intros ->; apply Hnonempty; reflexivity).
  destruct (encrypt_subset_returns (pk_q publicKey) sel message len Hsel_ne Hlen)
    as [ct ->].
  apply sound_lift. exact I.
Qed.

(** X12.  The failure modes of [encrypt] on a key with at least one
    element whose vectors have one length, and draws from [[0, 1)]: it
    throws exactly when the message is neither 0 nor 1, then with the
    message error and without reading a draw; for a bit it returns as soon
    as the tape holds one draw per key element and one more. *)
Theorem encrypt_failure_modes (publicKey : PublicKey) (message : Z)
  (len : nat) (t : tape) :
  pk_elements publicKey <> [] -> same_length len (pk_elements publicKey) ->
  Forall unit_draw t ->
  (encrypt publicKey message t = Throws "Message must be 0 or 1"
     <-> message <> 0 /\ message <> 1) /\
  (forall msg, encrypt publicKey message t = Throws msg ->
     msg = "Message must be 0 or 1") /\
  (message = 0 \/ message = 1 ->
   (length (pk_elements publicKey) < length t)%nat ->
   exists ct rest, encrypt publicKey message t = Returns ct rest).
Proof.
  intros Hne Hsame Ht.
  destruct (Z.eq_dec message 0) as [E0 | E0];
    [| destruct (Z.eq_dec message 1) as [E1 | E1]].
  1, 2: assert (message = 0 \/ message = 1) as Hbit by auto;
    pose proof (sound_encrypt publicKey message len Hbit Hne Hsame t Ht) as Hs;
    (split; [split; [intros E; rewrite E in Hs; contradiction
                    | intros [? ?]; lia] |]);
    (split; [intros msg E; rewrite E in Hs; contradiction |]);
    intros _ Hlen; unfold encrypt in *;
    replace (negb (message =? 0) && negb (message =? 1)) with false in *
      by (destruct Hbit; subst; reflexivity);
    rewrite bind_unfold in *;
    destruct (returns_chooseRandomSubset unit_draw (pk_elements publicKey)
                t Ht ltac:(lia)) as (subset & rest & Esel & _);
    rewrite Esel in *; unfold lift in *;
    destruct (encrypt_subset (pk_q publicKey) subset message) as [ct | msg];
    [exists ct, rest; reflexivity | contradiction].
  assert (encrypt publicKey message t = Throws "Message must be 0 or 1") as E.
  { unfold encrypt.
    destruct (Z.eqb_spec message 0); [contradiction |].
    destruct (Z.eqb_spec message 1); [contradiction |]. reflexivity. }
  rewrite E. split; [split; [intros _; split; assumption | reflexivity] |].
  split; [intros msg [= <-]; reflexivity |].
  intros [H | H]; contradiction.
Qed.

Lemma encrypt_failure_modes_witness :
  pk_elements small_key <> [] /\ same_length 2 (pk_elements small_key) /\
  Forall unit_draw small_tape /\
  (encrypt small_key 2 small_tape = Throws "Message must be 0 or 1"
     <-> 2 <> 0 /\ 2 <> 1).
Proof.
  assert (same_length 2 (pk_elements small_key)) as Hsame
    by (repeat constructor).
  assert (Forall unit_draw small_tape) as Ht.
  { repeat constructor; unfold Qle, Qlt; simpl; lia. }
  split; [discriminate | split; [exact Hsame | split; [exact Ht |]]].
  apply (encrypt_failure_modes small_key 2 2 small_tape);
    [discriminate | exact Hsame | exact Ht].
Defined.

(** X13.  A public key without elements cannot encrypt:
    [chooseRandomSubset] turns the empty list into the one-item list
    [[undefined]], so [encrypt] never returns a ciphertext, and for a bit it
    throws a type error as soon as one draw is there. *)
Theorem encrypt_empty_key (publicKey : PublicKey) (message : Z) :
  pk_elements publicKey = [] ->
  (forall d t, chooseRandomSubset (pk_elements publicKey) (d :: t)
               = Returns [None] t) /\
  (forall t ct rest, encrypt publicKey message t <> Returns ct rest) /\
  (message = 0 \/ message = 1 ->
   forall d t, encrypt publicKey message (d :: t) = Throws type_error).
Proof.
  intros Hempty.
  assert (forall d t, chooseRandomSubset (pk_elements publicKey) (d :: t)
                      = Returns [None] t) as Hsel.
  { intros d t. rewrite Hempty, chooseRandomSubset_unfold. simpl.
    rewrite index_nil. reflexivity. }
  split; [exact Hsel | split].
  - intros t ct rest Hrun.
    destruct (encrypt_returns_inv _ _ _ _ _ Hrun)
      as (_ & sel & Hne & Hsub & _).
    rewrite Hempty in Hsub. apply subseq_length in Hsub.
    destruct sel; [contradiction | simpl in Hsub; lia].
  - intros Hbit d t. unfold encrypt.
    replace (negb (message =? 0) && negb (message =? 1)) with false
      by (destruct Hbit; subst; reflexivity).
    rewrite bind_unfold, Hsel. reflexivity.
Qed.

Lemma encrypt_empty_key_witness :
  pk_elements (mkPublicKey [] 2 5) = [] /\
  forall d t, encrypt (mkPublicKey [] 2 5) 1 (d :: t) = Throws type_error.
Proof.
  split; [reflexivity |].
  apply (encrypt_empty_key (mkPublicKey [] 2 5) 1);
    [reflexivity | right; reflexivity].
Defined.

Lemma encrypt_decrypt_roundtrip_aux (secret : SecretKey)
  (publicKey : PublicKey) (message : Z) (t rest : tape) (ct : Ciphertext) :
  0 < sk_q secret -> pk_q publicKey = sk_q secret ->
  Forall (in_range (sk_q secret)) (sk_vector secret) ->
  Z.of_nat (length (sk_vector secret)) * sk_q secret * sk_q secret < 2 ^ 53 ->
  same_length (length (sk_vector secret)) (pk_elements publicKey) ->
  2 * total_noise (sk_vector secret) (sk_q secret) (pk_elements publicKey)
    < sk_q secret / 2 ->
  encrypt publicKey message t = Returns ct rest ->
  (message = 0 \/ message = 1) /\ decrypt secret ct = Ok message.
Proof.
  intros Hq Hsameq Hrange Hsize Hlen Hnoise Hrun.
  destruct (encrypt_returns_inv _ _ _ _ _ Hrun)
    as (Hbit & sel & _ & Hsub & _ & Henc).
  rewrite Hsameq in Henc. split; [assumption |].
  apply (decrypt_encrypt_subset secret sel message ct Hq Hbit Hrange Hsize).
  - apply (same_length_subseq _ _ _ Hsub Hlen).
  - pose proof (total_noise_subseq (sk_q secret) (sk_vector secret) _ _ Hq Hsub).
    lia.
  - exact Henc.
Qed.

(** The same for a key pair that fits the data model. *)
Lemma roundtrip_keys_ok (n q m : Z) (secret : SecretKey)
  (publicKey : PublicKey) (message : Z) (t rest : tape) (ct : Ciphertext) :
  0 < q -> keys_ok n q m secret publicKey -> n * q * q < 2 ^ 53 ->
  2 * total_noise (sk_vector secret) q (pk_elements publicKey) < q / 2 ->
  encrypt publicKey message t = Returns ct rest ->
  (message = 0 \/ message = 1) /\ decrypt secret ct = Ok message.
Proof.
  intros Hq Hok Hsize Hnoise Hrun.
  destruct Hok as ((Hlen & Hrange) & _ & Hskq & _ & Hall & _ & Hpkq).
  apply (encrypt_decrypt_roundtrip_aux secret publicKey message t rest ct).
  - rewrite Hskq. assumption.
  - congruence.
  - rewrite Hskq. assumption.
  - rewrite Hskq, Hlen. assumption.
  - apply Forall_forall. intros e He.
    destruct (proj1 (Forall_forall _ _) Hall e He) as [[Hl _] _]. lia.
  - rewrite Hskq. assumption.
  - assumption.
Qed.




Lemma ln_ge_1_from_4 (x : R) : (4 <= x -> 1 < ln x)%R.
Proof.
  intros Hx.
  assert (ln 4 = ln 2 + ln 2)%R as E4.
  { replace 4%R with (2 * 2)%R by lra. apply ln_mult; lra. }
  pose proof ln_lt_2 as H2.
  destruct (Req_dec x 4) as [-> | Hne]; [lra |].
  pose proof (ln_increasing 4 x ltac:(lra) ltac:(lra)). lra.
Qed.

Lemma sample_count_ge_n (n q : Z) :
  1 < n -> n * n <= q -> n <= Math_floor (IZR n * ln (IZR q)).
Proof.
  intros Hn Hq. apply Math_floor_ge.
  assert (1 < IZR n)%R as Hn' by (apply IZR_lt; assumption).
  assert (4 <= IZR q)%R as Hq' by (apply IZR_le; nia).
  pose proof (ln_ge_1_from_4 (IZR q) Hq'). nra.
Qed.

(** ** A run of [keygen] *)

Lemma exp_2_gt_5 : (5 < exp 2)%R.
Proof.
  pose proof (exp_ineq1 (1 / 2) ltac:(lra)) as H.
  assert (exp 1 = exp (1 / 2) * exp (1 / 2))%R as E1.
  { rewrite <- exp_plus. f_equal; lra. }
  assert (exp 2 = exp 1 * exp 1)%R as E2.
  { rewrite <- exp_plus. f_equal; lra. }
  assert (9 / 4 < exp 1)%R by nra.
  nra.
Qed.

Lemma exp_3_2_lt_5 : (exp (3 / 2) < 5)%R.
Proof.
  pose proof (exp_ineq1 (- (1 / 8)) ltac:(lra)) as H8.
  assert (exp (- (1 / 4)) = exp (- (1 / 8)) * exp (- (1 / 8)))%R as E4.
  { rewrite <- exp_plus. f_equal; lra. }
  assert (exp (- (1 / 2)) = exp (- (1 / 4)) * exp (- (1 / 4)))%R as E2.
  { rewrite <- exp_plus. f_equal; lra. }
  assert (exp (- 1) = exp (- (1 / 2)) * exp (- (1 / 2)))%R as E1.
  { rewrite <- exp_plus. f_equal; lra. }
  assert (exp (- (3 / 2)) = exp (- 1) * exp (- (1 / 2)))%R as E32.
  { rewrite <- exp_plus. f_equal; lra. }
  assert (exp (3 / 2) * exp (- (3 / 2)) = 1)%R as Einv.
  { rewrite <- exp_plus. replace (3 / 2 + - (3 / 2))%R with 0%R by lra.
    apply exp_0. }
  assert (49 / 64 < exp (- (1 / 4)))%R as B4 by nra.
  assert (2401 / 4096 < exp (- (1 / 2)))%R as B2 by nra.
  assert (5764801 / 16777216 < exp (- 1))%R as B1 by nra.
  assert (1 / 5 < exp (- (3 / 2)))%R as B32 by nra.
  pose proof (exp_pos (3 / 2)) as Hpos.
  nra.
Qed.

Lemma Math_floor_unique (z : Z) (x : R) :
  (IZR z <= x < IZR z + 1)%R -> Math_floor x = z.
Proof.
  intros [Hle Hlt]. unfold Math_floor. symmetry.
  apply Int_part_spec. lra.
Qed.

Lemma sample_count_2_5 : Math_floor (IZR 2 * ln (IZR 5)) = 3.
Proof.
  apply Math_floor_unique.
  assert (3 / 2 < ln 5)%R as Hlo.
  { rewrite <- (ln_exp (3 / 2)). apply ln_increasing; [apply exp_pos |].
    apply exp_3_2_lt_5. }
  assert (ln 5 < 2)%R as Hhi.
  { rewrite <- (ln_exp 2). apply ln_increasing; [lra | apply exp_2_gt_5]. }
  lra.
Qed.

Lemma Math_round_zero (s : R) : Math_round (0 * s) = 0.
Proof.
  unfold Math_round. symmetry. apply Int_part_spec. lra.
Qed.

Lemma sampleNormal_centre (s : R) (rest : tape) :
  (0 < s)%R ->
  sampleNormal s ((1 # 2) :: (3 # 4) :: rest)%Q = Returns 0 rest.
Proof.
  intros Hs. unfold sampleNormal.
  destruct (Rle_dec s 0); [lra |].
  rewrite bind_unfold, polar_loop_step. cbv zeta.
  replace (Qle_bool 1 _ || Qeq_bool _ 0) with false by reflexivity.
  cbv beta iota zeta.
  replace (Q2R (2 * (1 # 2) - 1)) with 0%R by (unfold Q2R; simpl; lra).
  rewrite Rmult_0_l. simpl. f_equal. apply Math_round_zero.
Qed.

Lemma keygen_elements_step (n q : Z) (alpha : R) (secret v : Vector)
  (k : nat) (t0 t1 : tape) :
  1 <= Math_floor (alpha * IZR q) ->
  sampleUniformVector q n t0 = Returns v ((1 # 2) :: (3 # 4) :: t1)%Q ->
  length v = length secret ->
  keygen_elements n q alpha secret (S k) t0 =
  match keygen_elements n q alpha secret k t1 with
  | Returns rest t2 =>
      Returns (mkElement v (mod_ (dot_loop 0 v secret + 0) q) :: rest) t2
  | Throws msg => Throws msg
  | Starves => Starves
  end.
Proof.
  intros Hs Hv Hlen. rewrite keygen_elements_S, bind_unfold, Hv.
  rewrite bind_unfold, sampleNormal_centre by (apply IZR_lt; lia).
  rewrite dotProduct_same by assumption.
  rewrite bind_unfold. unfold lift. rewrite bind_unfold.
  destruct (keygen_elements n q alpha secret k t1); reflexivity.
Qed.

Lemma keygen_demo_run :
  keygen 2 5 demo_tape = Returns (demo_secret, demo_public) demo_encrypt_tape.
Proof.
  rewrite keygen_guards by (try lia; exact prime_5).
  rewrite sample_count_2_5.
  pose proof (noise_scale_ge_1 2 5 ltac:(lia) ltac:(lia)) as Hs.
  set (alpha := (1 / (sqrt (IZR 2) * ln (IZR 2) ^ 2))%R) in *.
  rewrite bind_unfold.
  replace (sampleUniformVector 5 2 demo_tape)
    with (Returns [1; 2] (skipn 2 demo_tape)) by reflexivity.
  change (Z.to_nat 3) with 3%nat. rewrite bind_unfold.
  rewrite (keygen_elements_step 2 5 alpha [1; 2] [0; 1] 2 _ (skipn 6 demo_tape));
    [| exact Hs | reflexivity | reflexivity].
  rewrite (keygen_elements_step 2 5 alpha [1; 2] [2; 0] 1 _ (skipn 10 demo_tape));
    [| exact Hs | reflexivity | reflexivity].
  rewrite (keygen_elements_step 2 5 alpha [1; 2] [3; 4] 0 _ (skipn 14 demo_tape));
    [| exact Hs | reflexivity | reflexivity].
  reflexivity.
Qed.

(** ** A run of [keygen] with noise *)

Lemma exp_double (x : R) : (exp (2 * x) = exp x * exp x)%R.
Proof. rewrite <- exp_plus. f_equal; lra. Qed.

Lemma ln_2_bounds : (3 / 5 < ln 2 < 4 / 5)%R.
Proof.
  split.
  - rewrite <- (ln_exp (3 / 5)). apply ln_increasing; [apply exp_pos |].
    pose proof (exp_ineq1 (- (3 / 20)) ltac:(lra)) as H0.
    pose proof (exp_double (- (3 / 20))) as E1.
    pose proof (exp_double (2 * - (3 / 20))) as E2.
    assert (exp (3 / 5) * exp (2 * (2 * - (3 / 20))) = 1)%R as Einv.
    { rewrite <- exp_plus. replace (3 / 5 + 2 * (2 * - (3 / 20)))%R with 0%R by lra.
      apply exp_0. }
    pose proof (exp_pos (3 / 5)) as Hpos.
    assert (289 / 400 < exp (2 * - (3 / 20)))%R as B1 by nra.
    assert (1 / 2 < exp (2 * (2 * - (3 / 20))))%R as B2 by nra.
    nra.
  - rewrite <- (ln_exp (4 / 5)). apply ln_increasing; [lra |].
    pose proof (exp_ineq1 (1 / 5) ltac:(lra)) as H0.
    pose proof (exp_double (1 / 5)) as E1.
    pose proof (exp_double (2 * (1 / 5))) as E2.
    replace (4 / 5)%R with (2 * (2 * (1 / 5)))%R by lra.
    assert (36 / 25 < exp (2 * (1 / 5)))%R as B1 by nra.
    nra.
Qed.

Lemma sqrt_2_bounds : (7 / 5 < sqrt 2 < 3 / 2)%R.
Proof.
  assert (0 < sqrt 2)%R as Hpos by (apply sqrt_lt_R0; lra).
  assert (sqrt 2 * sqrt 2 = 2)%R as Hsq by (apply sqrt_sqrt; lra).
  split; nra.
Qed.

Lemma exp_3_gt_17 : (17 < exp 3)%R.
Proof.
  pose proof (exp_ineq1 (1 / 16) ltac:(lra)) as H0.
  pose proof (exp_double (1 / 16)) as E1.
  pose proof (exp_double (2 * (1 / 16))) as E2.
  pose proof (exp_double (2 * (2 * (1 / 16)))) as E3.
  pose proof (exp_double (2 * (2 * (2 * (1 / 16))))) as E4.
  replace (2 * (2 * (2 * (2 * (1 / 16)))))%R with 1%R in E4 by lra.
  assert (exp 3 = exp 1 * (exp 1 * exp 1))%R as E.
  { rewrite <- !exp_plus. f_equal; lra. }
  assert (289 / 256 < exp (2 * (1 / 16)))%R as B1 by nra.
  assert (83521 / 65536 < exp (2 * (2 * (1 / 16))))%R as B2 by nra.
  assert (8 / 5 < exp (2 * (2 * (2 * (1 / 16)))))%R as B3 by nra.
  assert (64 / 25 < exp 1)%R as B4 by nra.
  assert (6 < exp 1 * exp 1)%R as B5 by nra.
  nra.
Qed.

Lemma exp_5_2_lt_17 : (exp (5 / 2) < 17)%R.
Proof.
  pose proof exp_3_2_lt_5 as H32.
  pose proof (exp_ineq1 (- (1 / 4)) ltac:(lra)) as H0.
  pose proof (exp_double (- (1 / 4))) as E1.
  pose proof (exp_double (2 * - (1 / 4))) as E2.
  replace (2 * (2 * - (1 / 4)))%R with (- 1)%R in E2 by lra.
  assert (exp 1 * exp (- 1) = 1)%R as Einv.
  { rewrite <- exp_plus. replace (1 + - 1)%R with 0%R by lra. apply exp_0. }
  assert (exp (5 / 2) = exp (3 / 2) * exp 1)%R as E.
  { rewrite <- exp_plus. f_equal; lra. }
  pose proof (exp_pos 1) as Hpos. pose proof (exp_pos (3 / 2)) as Hpos'.
  assert (9 / 16 < exp (2 * - (1 / 4)))%R as B1 by nra.
  assert (5 / 16 < exp (- 1))%R as B2 by nra.
  assert (exp 1 < 16 / 5)%R as B3 by nra.
  nra.
Qed.

Lemma sample_count_2_17 : Math_floor (IZR 2 * ln (IZR 17)) = 5.
Proof.
  apply Math_floor_unique.
  assert (5 / 2 < ln 17)%R as Hlo.
  { rewrite <- (ln_exp (5 / 2)). apply ln_increasing; [apply exp_pos |].
    apply exp_5_2_lt_17. }
  assert (ln 17 < 3)%R as Hhi.
  { rewrite <- (ln_exp 3). apply ln_increasing; [lra | apply exp_3_gt_17]. }
  lra.
Qed.

Lemma Math_floor_lt (z : Z) (x : R) : (x < IZR z)%R -> Math_floor x < z.
Proof.
  intros H. unfold Math_floor.
  destruct (base_Int_part x) as [Hle _].
  apply lt_IZR. lra.
Qed.

Lemma noise_scale_2_17 :
  17 <= Math_floor (1 / (sqrt (IZR 2) * ln (IZR 2) ^ 2) * IZR 17) <= 33.
Proof.
  pose proof ln_2_bounds as [Hl1 Hl2]. pose proof sqrt_2_bounds as [Hs1 Hs2].
  set (s := sqrt 2) in *. set (l := ln 2) in *.
  assert (1 / 2 < s * l ^ 2 < 1)%R as [Hd1 Hd2] by (simpl; split; nra).
  assert (0 < / (s * l ^ 2))%R as Hinv by (apply Rinv_0_lt_compat; lra).
  assert (s * l ^ 2 * / (s * l ^ 2) = 1)%R as Hone by (apply Rinv_r; lra).
  unfold Rdiv. rewrite Rmult_1_l.
  split.
  - apply Math_floor_ge. nra.
  - assert (Math_floor (/ (s * l ^ 2) * 17) < 34); [| lia].
    apply Math_floor_lt. nra.
Qed.

Lemma Math_round_unique (z : Z) (x : R) :
  (IZR z <= x + / 2 < IZR z + 1)%R -> Math_round x = z.
Proof.
  intros [Hle Hlt]. unfold Math_round. symmetry.
  apply Int_part_spec. lra.
Qed.

Lemma sampleNormal_one (s : R) (rest : tape) :
  (17 <= s <= 33)%R ->
  sampleNormal s ((10101 # 20002) :: (30001 # 40004) :: rest)%Q = Returns 1 rest.
Proof.
  intros Hs. unfold sampleNormal.
  destruct (Rle_dec s 0); [lra |].
  rewrite bind_unfold, polar_loop_step. cbv zeta.
  replace (Qle_bool 1 _ || Qeq_bool _ 0) with false by reflexivity.
  cbv beta iota zeta.
  replace (Q2R (2 * (10101 # 20002) - 1)) with (100 / 10001)%R
    by (unfold Q2R; simpl; lra).
  replace (Q2R ((2 * (10101 # 20002) - 1) * (2 * (10101 # 20002) - 1) +
                (2 * (30001 # 40004) - 1) * (2 * (30001 # 40004) - 1)))
    with (/ 4)%R by (unfold Q2R; simpl; lra).
  simpl ret. f_equal. apply Math_round_unique.
  pose proof ln_2_bounds as [Hl1 Hl2].
  assert (ln (/ 4) = - (ln 2 + ln 2))%R as E4.
  { rewrite ln_Rinv by lra. replace 4%R with (2 * 2)%R by lra.
    rewrite ln_mult by lra. reflexivity. }
  rewrite E4.
  set (A := (-2 * - (ln 2 + ln 2) / / 4)%R).
  assert (A = 16 * ln 2)%R as EA by (unfold A; field).
  assert (3 < sqrt A < 18 / 5)%R as [Ha1 Ha2].
  { assert (0 < sqrt A)%R as Hpos by (apply sqrt_lt_R0; lra).
    assert (sqrt A * sqrt A = A)%R as Hsq by (apply sqrt_sqrt; lra).
    split; nra. }
  assert (51 <= sqrt A * s <= 594 / 5)%R as [Hp1 Hp2] by (split; nra).
  simpl IZR. lra.
Qed.

Lemma keygen_elements_step_noisy (n q : Z) (alpha : R) (secret v : Vector)
  (k : nat) (t0 t1 : tape) :
  17 <= Math_floor (alpha * IZR q) <= 33 ->
  sampleUniformVector q n t0
    = Returns v ((10101 # 20002) :: (30001 # 40004) :: t1)%Q ->
  length v = length secret ->
  keygen_elements n q alpha secret (S k) t0 =
  match keygen_elements n q alpha secret k t1 with
  | Returns rest t2 =>
      Returns (mkElement v (mod_ (dot_loop 0 v secret + 1) q) :: rest) t2
  | Throws msg => Throws msg
  | Starves => Starves
  end.
Proof.
  intros Hs Hv Hlen. rewrite keygen_elements_S, bind_unfold, Hv.
  rewrite bind_unfold, sampleNormal_one by (split; apply IZR_le; lia).
  rewrite dotProduct_same by assumption.
  rewrite bind_unfold. unfold lift. rewrite bind_unfold.
  destruct (keygen_elements n q alpha secret k t1); reflexivity.
Qed.

Lemma prime_17 : prime 17.
Proof. apply isPrime_spec. reflexivity. Qed.

Lemma keygen_noisy_run :
  keygen 2 17 noisy_tape = Returns (noisy_secret, noisy_public) noisy_encrypt_tape.
Proof.
  rewrite keygen_guards by (try lia; exact prime_17).
  rewrite sample_count_2_17.
  pose proof noise_scale_2_17 as Hs.
  assert (1 <= Math_floor (1 / (sqrt (IZR 2) * ln (IZR 2) ^ 2) * IZR 17)) as Hs1
    by lia.
  set (alpha := (1 / (sqrt (IZR 2) * ln (IZR 2) ^ 2))%R) in *.
  rewrite bind_unfold.
  replace (sampleUniformVector 17 2 noisy_tape)
    with (Returns [3; 5] (skipn 2 noisy_tape)) by reflexivity.
  change (Z.to_nat 5) with 5%nat. rewrite bind_unfold.
  rewrite (keygen_elements_step_noisy 2 17 alpha [3; 5] [1; 2] 4 _
             (skipn 6 noisy_tape));
    [| exact Hs | reflexivity | reflexivity].
  rewrite (keygen_elements_step 2 17 alpha [3; 5] [4; 0] 3 _ (skipn 10 noisy_tape));
    [| exact Hs1 | reflexivity | reflexivity].
  rewrite (keygen_elements_step 2 17 alpha [3; 5] [7; 11] 2 _ (skipn 14 noisy_tape));
    [| exact Hs1 | reflexivity | reflexivity].
  rewrite (keygen_elements_step 2 17 alpha [3; 5] [16; 9] 1 _ (skipn 18 noisy_tape));
    [| exact Hs1 | reflexivity | reflexivity].
  rewrite (keygen_elements_step 2 17 alpha [3; 5] [0; 13] 0 _ (skipn 22 noisy_tape));
    [| exact Hs1 | reflexivity | reflexivity].
  reflexivity.
Qed.

(** X15.  A public key made by [keygen] has at least [n] elements (so at
    least two): [floor(n * ln q) >= n] for [n > 1] and [q >= n * n].  The
    empty-key failure of [encrypt] cannot occur on a generated key. *)
Theorem keygen_sample_count (n q : Z) (t rest : tape)
  (sk : SecretKey) (pk : PublicKey) :
  1 < n -> n * n <= q -> prime q -> Forall unit_draw t ->
  keygen n q t = Returns (sk, pk) rest ->
  n <= Z.of_nat (length (pk_elements pk)) /\ pk_elements pk <> [].
Proof.
  intros Hn Hq Hp Ht Hrun.
  pose proof (sound_keygen n q Hn Hq Hp t Ht) as Hs.
  rewrite Hrun in Hs. destruct Hs as [Hok _]. simpl in Hok.
  destruct Hok as (_ & _ & _ & Hm & _).
  pose proof (sample_count_ge_n n q Hn Hq) as Hge.
  split; [lia |]. intros E. rewrite E in Hm. simpl in Hm. lia.
Qed.

(** X16.  Keys from [keygen] fit [encrypt] and [decrypt]: for [n > 1], a
    prime [q >= n * n] with [n * q * q < 2^53] (no dot product is rounded)
    and draws from [[0, 1)], if the generated public key is quiet enough
    (twice its summed noise below [floor(q/2)]), then any ciphertext
    [encrypt] returns for a bit under it decrypts, under the generated
    secret key, to that bit. *)
Theorem keygen_encrypt_decrypt (n q message : Z) (t t1 t2 : tape)
  (sk : SecretKey) (pk : PublicKey) (ct : Ciphertext) :
  1 < n -> n * n <= q -> prime q -> n * q * q < 2 ^ 53 ->
  Forall unit_draw t ->
  keygen n q t = Returns (sk, pk) t1 ->
  2 * total_noise (sk_vector sk) q (pk_elements pk) < q / 2 ->
  encrypt pk message t1 = Returns ct t2 ->
  decrypt sk ct = Ok message.
Proof.
  intros Hn Hq Hp Hsize Ht Hgen Hnoise Henc.
  pose proof (sound_keygen n q Hn Hq Hp t Ht) as Hs.
  rewrite Hgen in Hs. destruct Hs as [Hok _]. simpl in Hok.
  apply (roundtrip_keys_ok n q (Math_floor (IZR n * ln (IZR q))) sk pk
           message t1 t2 ct);
    [nia | exact Hok | assumption | assumption | assumption].
Qed.

Lemma keygen_sample_count_witness :
  1 < 2 /\ 2 * 2 <= 5 /\ prime 5 /\ Forall unit_draw demo_tape /\
  keygen 2 5 demo_tape = Returns (demo_secret, demo_public) demo_encrypt_tape /\
  2 <= Z.of_nat (length (pk_elements demo_public)) /\
  pk_elements demo_public <> [].
Proof.
  assert (Forall unit_draw demo_tape) as Ht.
  { repeat constructor; unfold Qle, Qlt; simpl; lia. }
  split; [lia | split; [lia | split; [exact prime_5 | split; [exact Ht |]]]].
  split; [exact keygen_demo_run |].
  apply (keygen_sample_count 2 5 demo_tape demo_encrypt_tape
           demo_secret demo_public);
    [lia | lia | exact prime_5 | exact Ht | exact keygen_demo_run].
Defined.

Lemma keygen_encrypt_decrypt_witness :
  1 < 2 /\ 2 * 2 <= 17 /\ prime 17 /\ 2 * 17 * 17 < 2 ^ 53 /\
  Forall unit_draw noisy_tape /\
  keygen 2 17 noisy_tape
    = Returns (noisy_secret, noisy_public) noisy_encrypt_tape /\
  total_noise (sk_vector noisy_secret) 17 (pk_elements noisy_public) = 1 /\
  2 * total_noise (sk_vector noisy_secret) 17 (pk_elements noisy_public)
    < 17 / 2 /\
  encrypt noisy_public 1 noisy_encrypt_tape
    = Returns (mkElement [8; 13] 13) [] /\
  decrypt noisy_secret (mkElement [8; 13] 13) = Ok 1.
Proof.
  assert (Forall unit_draw noisy_tape) as Ht.
  { repeat constructor; unfold Qle, Qlt; simpl; lia. }
  split; [lia | split; [lia | split; [exact prime_17 |]]].
  split; [reflexivity | split; [exact Ht |]].
  split; [exact keygen_noisy_run | split; [reflexivity |]].
  split; [reflexivity | split; [reflexivity |]].
  apply (keygen_encrypt_decrypt 2 17 1 noisy_tape noisy_encrypt_tape []
           noisy_secret noisy_public (mkElement [8; 13] 13));
    [lia | lia | exact prime_17 | reflexivity | exact Ht
     | exact keygen_noisy_run | reflexivity | reflexivity].
Defined.

(** ** Theorems on the samplers *)

Lemma Qfloor_fraction (k q : Z) :
  0 < q -> Qfloor ((k # Z.to_pos q) * inject_Z q) = k.
Proof.
  intros Hq. unfold Qfloor, Qmult, inject_Z. simpl.
  rewrite Pos.mul_1_r, Z2Pos.id by assumption.
  apply Z.div_mul. lia.
Qed.

(** X17.  [sampleUniform(q)] throws exactly when [q <= 0], before reading
    a draw.  For [q > 0] it reads one draw; a draw from [[0, 1)] yields a
    value in [[0, q)], and every value of [[0, q)] is the result of some
    draw. *)
Theorem sampleUniform_contract (q : Z) :
  (q <= 0 -> forall t, sampleUniform q t = Throws "q must be a positive integer")
  /\
  (0 < q ->
   sampleUniform q [] = Starves /\
   (forall d t, unit_draw d ->
      exists x, sampleUniform q (d :: t) = Returns x t /\ 0 <= x < q) /\
   (forall k t, 0 <= k < q ->
      exists d, unit_draw d /\ sampleUniform q (d :: t) = Returns k t)).
Proof.
  unfold sampleUniform. split.
  - intros Hq t. destruct (Z.leb_spec q 0); [reflexivity | lia].
  - intros Hq. destruct (Z.leb_spec q 0); [lia |].
    split; [reflexivity | split].
    + intros d t Hd. eexists. split; [reflexivity |].
      apply floor_scaled_draw; assumption.
    + intros k t Hk. exists (k # Z.to_pos q). split.
      * unfold unit_draw, Qle, Qlt. simpl.
        rewrite Z2Pos.id by assumption. lia.
      * rewrite bind_unfold. simpl. f_equal.
        apply Qfloor_fraction. assumption.
Qed.

Lemma sampleUniform_times_exact (q : Z) (k : nat) (t : tape) :
  0 < q ->
  ((length t < k)%nat -> sampleUniform_times q k t = Starves) /\
  ((k <= length t)%nat ->
   exists v, sampleUniform_times q k t = Returns v (skipn k t)
             /\ length v = k).
Proof.
  intros Hq. revert t. induction k as [| k IH]; intros t.
  - split; [lia |]. intros _. exists []. split; reflexivity.
  - simpl sampleUniform_times. rewrite bind_unfold.
    unfold sampleUniform. destruct (Z.leb_spec q 0); [lia |].
    rewrite bind_unfold.
    destruct t as [| d t]; simpl; [split; [reflexivity | lia] |].
    rewrite bind_unfold. destruct (IH t) as [IHs IHr]. split.
    + intros Hlen. rewrite IHs by lia. reflexivity.
    + intros Hlen. destruct (IHr ltac:(lia)) as (v & -> & Hv).
      eexists. split; [reflexivity |]. simpl. congruence.
Qed.

(** X18.  [sampleUniformVector(q, n)] checks [n] first and [q] at the
    first sample: it throws the [n] error when [n <= 0], the [q] error when
    [n > 0] and [q <= 0] (even with no draw left), and for [n > 0], [q > 0]
    it reads exactly [n] draws: it starves on a shorter tape and otherwise
    returns [n] values, all in [[0, q)] when the draws are in [[0, 1)]. *)
Theorem sampleUniformVector_contract (q n : Z) (t : tape) :
  (n <= 0 ->
   sampleUniformVector q n t = Throws "n must be a positive integer") /\
  (0 < n -> q <= 0 ->
   sampleUniformVector q n t = Throws "q must be a positive integer") /\
  (0 < n -> 0 < q ->
   ((length t < Z.to_nat n)%nat -> sampleUniformVector q n t = Starves) /\
   ((Z.to_nat n <= length t)%nat ->
    exists v, sampleUniformVector q n t = Returns v (skipn (Z.to_nat n) t)
              /\ Z.of_nat (length v) = n
              /\ (Forall unit_draw t -> Forall (in_range q) v))).
Proof.
  unfold sampleUniformVector. split; [| split].
  - intros Hn. destruct (Z.leb_spec n 0); [reflexivity | lia].
  - intros Hn Hq. destruct (Z.leb_spec n 0); [lia |].
    destruct (Z.to_nat n) as [| k] eqn:Ek; [lia |].
    simpl. rewrite bind_unfold. unfold sampleUniform.
    destruct (Z.leb_spec q 0); [reflexivity | lia].
  - intros Hn Hq. destruct (Z.leb_spec n 0); [lia |].
    destruct (sampleUniform_times_exact q (Z.to_nat n) t Hq) as [Hs Hr].
    split; [exact Hs |].
    intros Hlen. destruct (Hr Hlen) as (v & Ev & Hv).
    exists v. split; [exact Ev | split; [lia |]].
    intros Ht. pose proof (sound_sampleUniform_times q (Z.to_nat n) Hq t Ht) as S.
    rewrite Ev in S. apply S.
Qed.

Lemma skipn_skipn_2 {T} (k : nat) (d1 d2 : T) (t : list T) :
  skipn (2 * k) t = skipn (2 * S k) (d1 :: d2 :: t).
Proof. replace (2 * S k)%nat with (S (S (2 * k))) by lia. reflexivity. Qed.

Lemma polar_loop_accepted (t rest : tape) (u s_val : Q) :
  polar_loop t = Returns (u, s_val) rest ->
  (0 < s_val)%Q /\ (s_val < 1)%Q /\ (u * u <= s_val)%Q /\
  exists k, (0 < k)%nat /\ rest = skipn (2 * k) t.
Proof.
  assert (forall t,
            (forall u s_val rest, polar_loop t = Returns (u, s_val) rest ->
               (0 < s_val)%Q /\ (s_val < 1)%Q /\ (u * u <= s_val)%Q /\
               exists k, (0 < k)%nat /\ rest = skipn (2 * k) t) /\
            (forall d u s_val rest,
               polar_loop (d :: t) = Returns (u, s_val) rest ->
               (0 < s_val)%Q /\ (s_val < 1)%Q /\ (u * u <= s_val)%Q /\
               exists k, (0 < k)%nat /\ rest = skipn (2 * k) (d :: t)))
    as Hboth.
  { clear. induction t as [| d2 t [IH0 IH1]].
    - split; intros; discriminate.
    - split; [apply IH1 |].
      intros d1 u s_val rest. rewrite polar_loop_step. cbv zeta.
      set (u0 := (2 * d1 - 1)%Q). set (v0 := (2 * d2 - 1)%Q).
      destruct (Qle_bool 1 (u0 * u0 + v0 * v0)) eqn:E1; simpl.
      { intros H. destruct (IH0 _ _ _ H) as (A & B & C & k & Hk & ->).
        repeat split; try assumption.
        exists (S k). split; [lia | apply skipn_skipn_2]. }
      destruct (Qeq_bool (u0 * u0 + v0 * v0) 0) eqn:E2.
      { intros H. destruct (IH0 _ _ _ H) as (A & B & C & k & Hk & ->).
        repeat split; try assumption.
        exists (S k). split; [lia | apply skipn_skipn_2]. }
      intros H. inversion H; subst. clear H.
      assert (~ (1 <= u0 * u0 + v0 * v0)%Q) as N1.
      { intros Hle. apply Qle_bool_iff in Hle. congruence. }
      assert (~ (u0 * u0 + v0 * v0 == 0)%Q) as N2.
      { intros Heq. apply Qeq_bool_iff in Heq. congruence. }
      assert (0 <= u0 * u0)%Q as Hu by Lqa.nra.
      assert (0 <= v0 * v0)%Q as Hv by Lqa.nra.
      split; [| split; [| split]].
      + apply Qnot_le_lt. intros Hle. apply N2. Lqa.lra.
      + apply Qnot_le_lt. assumption.
      + Lqa.lra.
      + exists 1%nat. split; [lia | reflexivity]. }
  intros H. apply (proj1 (Hboth t) _ _ _ H).
Qed.

(** X19.  The pair the polar loop accepts is safe for the transformation
    that follows: [0 < s_val < 1] and [u * u <= s_val], so the argument of
    [Math.sqrt], [-2 * ln(s_val) / s_val], is a positive real; and the loop
    has read a positive even number of draws. *)
Theorem polar_loop_accepts (t rest : tape) (u s_val : Q) :
  polar_loop t = Returns (u, s_val) rest ->
  (0 < s_val)%Q /\ (s_val < 1)%Q /\ (u * u <= s_val)%Q /\
  (exists k, (0 < k)%nat /\ rest = skipn (2 * k) t) /\
  (0 < (-2 * ln (Q2R s_val)) / Q2R s_val)%R.
Proof.
  intros H. destruct (polar_loop_accepted t rest u s_val H)
    as (H0 & H1 & Hu & Hk).
  repeat split; try assumption.
  apply Qlt_Rlt in H0. apply Qlt_Rlt in H1.
  replace (Q2R 0) with 0%R in H0 by (unfold Q2R; simpl; lra).
  replace (Q2R 1) with 1%R in H1 by (unfold Q2R; simpl; lra).
  assert (ln (Q2R s_val) < 0)%R as Hln.
  { rewrite <- ln_1. apply ln_increasing; assumption. }
  apply Rdiv_lt_0_compat; lra.
Qed.

Lemma polar_loop_accepts_witness :
  polar_loop [1 # 2; 1 # 2; 1 # 2; 3 # 4; 1 # 3]%Q
    = Returns ((2 * (1 # 2) - 1)%Q,
               ((2 * (1 # 2) - 1) * (2 * (1 # 2) - 1)
                + (2 * (3 # 4) - 1) * (2 * (3 # 4) - 1))%Q) [1 # 3]%Q /\
  (exists k, (0 < k)%nat /\
             [1 # 3]%Q = skipn (2 * k) [1 # 2; 1 # 2; 1 # 2; 3 # 4; 1 # 3]%Q).
Proof.
  split; [reflexivity |].
  apply (polar_loop_accepts [1 # 2; 1 # 2; 1 # 2; 3 # 4; 1 # 3]%Q [1 # 3]%Q
           (2 * (1 # 2) - 1)%Q
           ((2 * (1 # 2) - 1) * (2 * (1 # 2) - 1)
            + (2 * (3 # 4) - 1) * (2 * (3 # 4) - 1))%Q).
  reflexivity.
Defined.

Lemma skipn_S_tail {T} (k : nat) (t : list T) (d : T) (rest : list T) :
  skipn k t = d :: rest -> skipn (S k) t = rest.
Proof.
  revert t. induction k as [| k IH]; intros t; simpl.
  - intros ->. reflexivity.
  - destruct t as [| x t]; [discriminate |]. intros H.
    apply IH in H. exact H.
Qed.

(** X20.  What [chooseRandomSubset] returns for a non-empty input, on
    draws from [[0, 1)], is a selection of the input in input order, each
    position used at most once.  It has read one draw per item, or one
    draw more, in which case the result is a single item (the fallback). *)
Theorem chooseRandomSubset_keeps_order {T : Type} (set : list T)
  (t rest : tape) (res : list (option T)) :
  set <> [] -> Forall unit_draw t ->
  chooseRandomSubset set t = Returns res rest ->
  exists sel,
    res = map Some sel /\ subseq sel set /\
    (rest = skipn (length set) t \/
     (length sel = 1%nat /\ rest = skipn (S (length set)) t)).
Proof.
  intros Hne Ht Hrun.
  pose proof (sound_chooseRandomSubset set Hne t Ht) as Hs.
  rewrite Hrun in Hs. destruct Hs as [[_ Hall] _].
  destruct (all_some_of_set _ _ Hall) as (sel & -> & _).
  exists sel. split; [reflexivity |].
  split; [apply (chooseRandomSubset_subseq _ _ _ _ Hrun) |].
  rewrite chooseRandomSubset_unfold in Hrun.
  destruct (inclusion_pass set t) as [[| y picked] rest0 | |] eqn:Hpass;
    try discriminate.
  - destruct rest0 as [| d rest1]; [discriminate |].
    inversion Hrun as [[Hidx Hrest]]. right.
    destruct (inclusion_pass_returns _ _ _ _ Hpass) as (_ & Hskip & _).
    split.
    + destruct sel as [| x [| x' sel]]; try discriminate. reflexivity.
    + rewrite <- Hrest. symmetry.
      apply (skipn_S_tail _ _ d). symmetry. exact Hskip.
  - inversion Hrun; subst. left.
    apply (inclusion_pass_returns _ _ _ _ Hpass).
Qed.

Lemma chooseRandomSubset_keeps_order_witness :
  [10; 20; 30] <> [] /\ Forall unit_draw [1 # 4; 3 # 4; 1 # 3; 2 # 3]%Q /\
  chooseRandomSubset [10; 20; 30] [1 # 4; 3 # 4; 1 # 3; 2 # 3]%Q
    = Returns [Some 10; Some 30] [2 # 3]%Q /\
  exists sel,
    [Some 10; Some 30] = map Some sel /\ subseq sel [10; 20; 30] /\
    ([2 # 3]%Q = skipn (length [10; 20; 30]) [1 # 4; 3 # 4; 1 # 3; 2 # 3]%Q \/
     (length sel = 1%nat /\
      [2 # 3]%Q
      = skipn (S (length [10; 20; 30])) [1 # 4; 3 # 4; 1 # 3; 2 # 3]%Q)).
Proof.
  assert (Forall unit_draw [1 # 4; 3 # 4; 1 # 3; 2 # 3]%Q) as Ht.
  { repeat constructor; unfold Qle, Qlt; simpl; lia. }
  split; [discriminate | split; [exact Ht | split; [reflexivity |]]].
  apply (chooseRandomSubset_keeps_order [10; 20; 30]
           [1 # 4; 3 # 4; 1 # 3; 2 # 3]%Q [2 # 3]%Q [Some 10; Some 30]);
    [discriminate | exact Ht | reflexivity].
Defined.

(** ** Theorems on the pages' calls *)

(** X21.  The search of [handleGenerateQ] fits [keygen]: for an integer
    [n > 0] (the page rejects the others) with [2 * n * n < 2^53], so that
    the bounds and the counter are exact, [findPrimeInRange(n * n, 2 * n * n)]
    does not throw and returns; a [q] it returns is a prime with
    [n * n <= q <= 2 * n * n]; [keygen(n, q)] then throws nothing when
    [n > 1], and only the dimension error when [n = 1]. *)
Theorem generateQ_feeds_keygen (nValue : Z) :
  0 < nValue -> 2 * nValue * nValue < 2 ^ 53 ->
  (exists r, generateQ nValue = Ok (Finishes r)) /\
  (forall q, generateQ nValue = Ok (Finishes (Some q)) ->
     prime q /\ nValue * nValue <= q <= 2 * nValue * nValue /\
     (1 < nValue ->
      forall t msg, Forall unit_draw t -> keygen nValue q t <> Throws msg) /\
     (nValue <= 1 -> forall t, keygen nValue q t = Throws InvalidDimension)).
Proof.
  intros Hpos Hsize. unfold generateQ. cbv zeta.
  assert (0 < nValue * nValue <= 2 * nValue * nValue) as Hsq by nia.
  rewrite (round_double_exact (nValue * nValue)) by lia.
  rewrite (round_double_exact (2 * nValue)) by nia.
  rewrite (round_double_exact (2 * nValue * nValue)) by lia.
  rewrite (findPrimeInRange_integers (nValue * nValue) (2 * nValue * nValue))
    by lia.
  remember (nValue * nValue) as lo eqn:Hlo.
  remember (2 * nValue * nValue) as hi eqn:Hhi.
  split; [rewrite findPrime_loop_scan by lia; eexists; reflexivity |].
  intros q H. injection H as H. apply findPrime_loop_sound in H.
  destruct H as (Hr & Hp).
  split; [assumption | split; [lia | split]].
  - intros Hn t msg Ht E.
    pose proof (sound_keygen nValue q Hn ltac:(lia) Hp t Ht) as Hs.
    rewrite E in Hs. exact Hs.
  - intros Hn t. unfold keygen.
    destruct (Z.leb_spec nValue 1); [reflexivity | lia].
Qed.

Lemma generateQ_feeds_keygen_witness :
  0 < 5 /\ 2 * 5 * 5 < 2 ^ 53 /\
  generateQ 5 = Ok (Finishes (Some 29)) /\
  prime 29 /\ 5 * 5 <= 29 <= 2 * 5 * 5 /\
  (1 < 5 ->
   forall t msg, Forall unit_draw t -> keygen 5 29 t <> Throws msg) /\
  (5 <= 1 -> forall t, keygen 5 29 t = Throws InvalidDimension).
Proof.
  split; [lia | split; [reflexivity | split; [reflexivity |]]].
  apply (proj2 (generateQ_feeds_keygen 5 ltac:(lia) ltac:(reflexivity)) 29).
  reflexivity.
Defined.

Lemma decrypt_loop_ok (secretKey : SecretKey) (ciphertexts : list Ciphertext) :
  Forall (fun ct => length (vector ct) = length (sk_vector secretKey))
         ciphertexts ->
  exists bits,
    decrypt_loop secretKey ciphertexts = Ok bits /\
    length bits = length ciphertexts /\
    Forall (fun b => b = 0 \/ b = 1) bits.
Proof.
  induction 1 as [| ct cts Hct _ IH]; simpl.
  - exists []. repeat split. constructor.
  - destruct IH as (bits & -> & Hlen & Hbits).
    destruct (proj2 (proj2 (decrypt_bit_or_mismatch_aux secretKey ct)) Hct)
      as [E | E]; rewrite E; simpl; eexists; (split; [reflexivity |]);
      (split; [simpl; congruence |]); constructor; auto.
Qed.


Lemma decrypt_loop_throws (secretKey : SecretKey) (ciphertexts : list Ciphertext) :
  Exists (fun ct => length (vector ct) <> length (sk_vector secretKey))
         ciphertexts ->
  decrypt_loop secretKey ciphertexts = Throw length_mismatch.
Proof.
  induction ciphertexts as [| ct cts IH]; intros Hex;
    [inversion Hex |].
  simpl.
  destruct (Nat.eq_dec (length (vector ct)) (length (sk_vector secretKey)))
    as [E | E].
  - destruct (proj2 (proj2 (decrypt_bit_or_mismatch_aux secretKey ct)) E)
      as [H | H]; rewrite H; simpl;
      (rewrite IH; [reflexivity |]);
      inversion Hex; subst; [contradiction | assumption | contradiction
                            | assumption].
  - rewrite (proj1 (decrypt_bit_or_mismatch_aux secretKey ct) E). reflexivity.
Qed.

Lemma concat_empty_cons (x : string) (xs : list string) :
  String.concat "" (x :: xs) = (x ++ String.concat "" xs)%string.
Proof.
  destruct xs as [| y ys]; simpl; [| reflexivity].
  induction x as [| c x IH]; simpl; [reflexivity | f_equal; exact IH].
Qed.

Lemma join_bits_chars (bits : list Z) :
  Forall (fun b => b = 0 \/ b = 1) bits ->
  String.length (String.concat "" (map Number_toString bits)) = length bits /\
  forallb (fun c => Ascii.eqb c "0" || Ascii.eqb c "1")
    (list_ascii_of_string (String.concat "" (map Number_toString bits)))
  = true.
Proof.
  induction 1 as [| b bits Hb _ [IHlen IHall]]; [split; reflexivity |].
  change (map Number_toString (b :: bits))
    with (Number_toString b :: map Number_toString bits).
  rewrite concat_empty_cons.
  destruct Hb as [-> | ->]; simpl; rewrite IHlen, IHall; split; reflexivity.
Qed.

(** X22.  The decryption loop of the page returns a string with one
    character per ciphertext, each "0" or "1" - for at least one ciphertext
    a string that [validateBinaryString] accepts - when every ciphertext
    vector has the length of the secret; if one has not, it throws the
    length-mismatch error and no partial string. *)
Theorem decryptString_output (secretKey : SecretKey)
  (ciphertexts : list Ciphertext) :
  (Forall (fun ct => length (vector ct) = length (sk_vector secretKey))
          ciphertexts ->
   exists str,
     decryptString secretKey ciphertexts = Ok str /\
     String.length str = length ciphertexts /\
     (ciphertexts <> [] -> validateBinaryString str = true)) /\
  (Exists (fun ct => length (vector ct) <> length (sk_vector secretKey))
          ciphertexts ->
   decryptString secretKey ciphertexts = Throw length_mismatch).
Proof.
  unfold decryptString. split.
  - intros Hall.
    destruct (decrypt_loop_ok secretKey ciphertexts Hall)
      as (bits & -> & Hlen & Hbits).
    destruct (join_bits_chars bits Hbits) as [Hl Hc].
    eexists. split; [reflexivity |]. split; [simpl; congruence |].
    intros Hne. simpl. unfold validateBinaryString.
    destruct (String.concat "" (map Number_toString bits)) eqn:E.
    + simpl in Hl. destruct ciphertexts; [contradiction | simpl in Hlen; lia].
    + exact Hc.
  - intros Hex. rewrite (decrypt_loop_throws _ _ Hex). reflexivity.
Qed.

Lemma decryptString_output_witness :
  Forall (fun ct => length (vector ct) = length (sk_vector demo_secret))
         [mkElement [0; 1] 4; mkElement [0; 1] 2] /\
  exists str,
    decryptString demo_secret [mkElement [0; 1] 4; mkElement [0; 1] 2] = Ok str /\
    String.length str = 2%nat /\
    ([mkElement [0; 1] 4; mkElement [0; 1] 2] <> [] ->
     validateBinaryString str = true).
Proof.
  assert (Forall (fun ct => length (vector ct) = length (sk_vector demo_secret))
            [mkElement [0; 1] 4; mkElement [0; 1] 2]) as Hall
    by (repeat constructor).
  split; [exact Hall |].
  apply (proj1 (decryptString_output demo_secret
                  [mkElement [0; 1] 4; mkElement [0; 1] 2])).
  exact Hall.
Defined.

Lemma parseInt_char_bit (bit : ascii) (m : Z) :
  parseInt_char bit = Some m -> m = 0 \/ m = 1 ->
  Number_toString m = String bit EmptyString.
Proof.
  unfold parseInt_char.
  destruct ((48 <=? _) && (_ <=? 57)); [| discriminate].
  intros [= E] Hm.
  assert (N_of_ascii bit = N.of_nat (Z.to_nat (m + 48))) as Hcode by lia.
  rewrite <- (ascii_N_embedding bit), Hcode.
  destruct Hm as [-> | ->]; reflexivity.
Qed.

Lemma encrypt_bits_cons (publicKey : PublicKey) (bit : ascii)
  (tl : list ascii) (t : tape) :
  encrypt_bits publicKey (bit :: tl) t =
  match encrypt_number publicKey (parseInt_char bit) t with
  | Returns ct t1 =>
      match encrypt_bits publicKey tl t1 with
      | Returns results rest => Returns (ct :: results) rest
      | Throws msg => Throws msg
      | Starves => Starves
      end
  | Throws msg => Throws msg
  | Starves => Starves
  end.
Proof.
  simpl encrypt_bits. rewrite bind_unfold.
  destruct (encrypt_number publicKey (parseInt_char bit) t); reflexivity.
Qed.




Lemma encrypt_returns_enough (publicKey : PublicKey) (message : Z)
  (len : nat) (t : tape) :
  message = 0 \/ message = 1 ->
  pk_elements publicKey <> [] -> same_length len (pk_elements publicKey) ->
  Forall unit_draw t -> (length (pk_elements publicKey) + 1 <= length t)%nat ->
  exists ct rest,
    encrypt publicKey message t = Returns ct rest /\ Forall unit_draw rest /\
    (length t <= length (pk_elements publicKey) + 1 + length rest)%nat.
Proof.
  intros Hbit Hne Hsame Ht Hlen.
  pose proof (sound_encrypt publicKey message len Hbit Hne Hsame t Ht) as Hs.
  unfold encrypt in *.
  replace (negb (message =? 0) && negb (message =? 1)) with false in *
    by (destruct Hbit; subst; reflexivity).
  rewrite bind_unfold in *.
  destruct (returns_chooseRandomSubset unit_draw (pk_elements publicKey)
              t Ht Hlen) as (subset & rest & Esel & Hrest & Hl).
  rewrite Esel in *. unfold lift in *.
  destruct (encrypt_subset (pk_q publicKey) subset message) as [ct | msg];
    [| contradiction].
  exists ct, rest. repeat split; assumption.
Qed.

Lemma parseInt_char_of_bit (c : ascii) :
  Ascii.eqb c "0" || Ascii.eqb c "1" = true ->
  exists m, parseInt_char c = Some m /\ (m = 0 \/ m = 1).
Proof.
  intros H. apply orb_true_iff in H.
  destruct H as [H | H]; apply Ascii.eqb_eq in H; subst c.
  - exists 0. split; [reflexivity | left; reflexivity].
  - exists 1. split; [reflexivity | right; reflexivity].
Qed.

Lemma bit_of_parseInt_char (c : ascii) (m : Z) :
  parseInt_char c = Some m -> m = 0 \/ m = 1 ->
  Ascii.eqb c "0" || Ascii.eqb c "1" = true.
Proof.
  intros Hp Hm. pose proof (parseInt_char_bit c m Hp Hm) as E.
  destruct Hm as [-> | ->]; injection E as <-; reflexivity.
Qed.

Lemma encrypt_bits_returns (publicKey : PublicKey) (bits : list ascii)
  (len : nat) (t : tape) :
  forallb (fun c => Ascii.eqb c "0" || Ascii.eqb c "1") bits = true ->
  pk_elements publicKey <> [] -> same_length len (pk_elements publicKey) ->
  Forall unit_draw t ->
  (length bits * (length (pk_elements publicKey) + 1) <= length t)%nat ->
  exists ciphertexts rest,
    encrypt_bits publicKey bits t = Returns ciphertexts rest /\
    length ciphertexts = length bits.
Proof.
  intros Hbits Hne Hsame. revert t.
  induction bits as [| bit bits IH]; intros t Ht Hlen.
  - exists [], t. split; reflexivity.
  - simpl in Hbits. apply andb_true_iff in Hbits. destruct Hbits as [Hb Hbits].
    destruct (parseInt_char_of_bit bit Hb) as (m & Hparse & Hm).
    rewrite encrypt_bits_cons, Hparse. simpl encrypt_number.
    simpl in Hlen.
    destruct (encrypt_returns_enough publicKey m len t Hm Hne Hsame Ht
                ltac:(lia)) as (ct & t1 & -> & Ht1 & Hl1).
    destruct (IH Hbits t1 Ht1 ltac:(lia)) as (cts & rest & -> & Hcts).
    exists (ct :: cts), rest. split; [reflexivity | simpl; congruence].
Qed.

Lemma encrypt_bits_only_bits (publicKey : PublicKey) (bits : list ascii)
  (t rest : tape) (ciphertexts : list Ciphertext) :
  encrypt_bits publicKey bits t = Returns ciphertexts rest ->
  forallb (fun c => Ascii.eqb c "0" || Ascii.eqb c "1") bits = true.
Proof.
  revert t rest ciphertexts. induction bits as [| bit bits IH];
    intros t rest ciphertexts; [reflexivity |].
  rewrite encrypt_bits_cons.
  destruct (parseInt_char bit) as [m |] eqn:Hparse; simpl encrypt_number;
    [| discriminate].
  destruct (encrypt publicKey m t) as [ct t1 | |] eqn:Henc; try discriminate.
  destruct (encrypt_bits publicKey bits t1) as [results rest' | |] eqn:Hrest;
    try discriminate.
  intros _. simpl.
  destruct (encrypt_returns_inv _ _ _ _ _ Henc) as [Hm _].
  rewrite (bit_of_parseInt_char bit m Hparse Hm). simpl.
  apply (IH _ _ _ Hrest).
Qed.

(** X24.  The page's validation is what its encryption loop needs.  On a
    string [validateBinaryString] accepts, with a key of at least one
    element whose vectors have one length and draws from [[0, 1)], the loop
    returns one ciphertext per character as soon as the tape holds, per
    character, one draw per key element and one more.  And the loop returns
    on no other non-empty string: a character other than "0" and "1" makes
    it throw or starve. *)
Theorem encryptString_validated (publicKey : PublicKey) (str : string)
  (len : nat) (t : tape) :
  pk_elements publicKey <> [] -> same_length len (pk_elements publicKey) ->
  Forall unit_draw t ->
  (validateBinaryString str = true ->
   (String.length str * (length (pk_elements publicKey) + 1) <= length t)%nat ->
   exists ciphertexts rest,
     encryptString publicKey str t = Returns ciphertexts rest /\
     length ciphertexts = String.length str) /\
  (forall ciphertexts rest,
     encryptString publicKey str t = Returns ciphertexts rest ->
     str = EmptyString \/ validateBinaryString str = true).
Proof.
  intros Hne Hsame Ht. unfold encryptString, validateBinaryString. split.
  - intros Hvalid Hlen.
    assert (forallb (fun c => Ascii.eqb c "0" || Ascii.eqb c "1")
              (list_ascii_of_string str) = true) as Hbits
      by (destruct str; [discriminate | exact Hvalid]).
    assert (length (list_ascii_of_string str) = String.length str) as Hl.
    { clear. induction str; simpl; congruence. }
    rewrite <- Hl in *.
    apply (encrypt_bits_returns publicKey _ len t Hbits Hne Hsame Ht Hlen).
  - intros ciphertexts rest Hrun.
    destruct str as [| c str]; [left; reflexivity | right].
    apply (encrypt_bits_only_bits _ _ _ _ _ Hrun).
Qed.

Lemma encryptString_validated_witness :
  pk_elements quiet_public <> [] /\
  same_length 2 (pk_elements quiet_public) /\
  Forall unit_draw [1 # 4; 3 # 4; 3 # 4; 1 # 4; 1 # 2; 1 # 2]%Q /\
  validateBinaryString "10" = true /\
  exists ciphertexts rest,
    encryptString quiet_public "10" [1 # 4; 3 # 4; 3 # 4; 1 # 4; 1 # 2; 1 # 2]%Q
      = Returns ciphertexts rest /\
    length ciphertexts = String.length "10".
Proof.
  assert (same_length 2 (pk_elements quiet_public)) as Hsame
    by (repeat constructor).
  assert (Forall unit_draw [1 # 4; 3 # 4; 3 # 4; 1 # 4; 1 # 2; 1 # 2]%Q) as Ht.
  { repeat constructor; unfold Qle, Qlt; simpl; lia. }
  split; [discriminate | split; [exact Hsame | split; [exact Ht |]]].
  split; [reflexivity |].
  apply (proj1 (encryptString_validated quiet_public "10" 2
                  [1 # 4; 3 # 4; 3 # 4; 1 # 4; 1 # 2; 1 # 2]%Q
                  ltac:(discriminate) Hsame Ht));
    [reflexivity | simpl; lia].
Defined.


